(** * Contact management CLI: the persistence layer of [main.py]

    A shallow embedding of [models_sqlalchemy.py] (the [contacts] table and its
    column constraints) and of the functions of [main.py] that read and write
    it through one SQLAlchemy session: [add_contact], [list_contacts],
    [update_contact], [delete_contact], [search_contacts], together with
    [read_config] and [setup_logging].

    A string is the sequence of the UTF-8 bytes of the Python string
    ([string]).  SQLite's [lower] and [LIKE] fold the case of ASCII letters
    only; Python's [str.upper] is the ASCII one on ASCII text and is left to
    the library on other text.  Integers are unbounded ([Z]), as Python's
    are; the database takes 64-bit signed integers only, and the driver
    raises [OverflowError] for any other integer it is asked to bind.  The
    ids the table itself hands out are not bounded here: the 64-bit limit of
    a rowid is out of reach of any run that starts from an empty table. *)

From Stdlib Require Import ZArith List String Ascii Bool Lia Sorted.
Import ListNotations.

Open Scope string_scope.
Open Scope list_scope.
Open Scope Z_scope.

(** ** The [contacts] table ([models_sqlalchemy.py]) *)

(** A stored row.  Every column is [nullable=False], so a stored row always
    holds a string in [name], [email] and [phone]. *)
Record Contact : Type := mkContact
  { id : Z;
    name : string;
    email : string;
    phone : string }.

(** The rows of the table in rowid order, the order of a full table scan. *)
Definition Table : Type := list Contact.

(** What the database answers when a statement breaks a column constraint
    ([sqlalchemy.exc.IntegrityError]): a [nullable=False] column received
    NULL, or a [unique=True] column received a value another row holds. *)
Inductive IntegrityError : Type :=
| NotNullViolation
| UniqueViolation.

(** [id = Column(Integer, primary_key=True, autoincrement=True)]: the rowid
    given to a new row is one more than the largest rowid of the table, and 1
    in an empty table. *)
Definition next_rowid (t : Table) : Z :=
  match map id t with
  | [] => 1
  | i :: l => 1 + fold_right Z.max i l
  end.

Definition email_taken (e : string) (t : Table) : bool :=
  existsb (fun c => String.eqb (email c) e) t.

Definition phone_taken (p : string) (t : Table) : bool :=
  existsb (fun c => String.eqb (phone c) p) t.

(** [INSERT INTO contacts (name, email, phone) VALUES (?, ?, ?)].  Python's
    [None] is SQL's NULL.  The NOT NULL columns are checked first, then the
    two UNIQUE columns; the empty string is an ordinary value. *)
Definition sql_insert (t : Table) (n e p : option string)
  : IntegrityError + Table :=
  match n, e, p with
  | Some n', Some e', Some p' =>
      if email_taken e' t || phone_taken p' t
      then inl UniqueViolation
      else inr (t ++ [mkContact (next_rowid t) n' e' p'])
  | _, _, _ => inl NotNullViolation
  end.

(** The row [c] after [SET email = ?, phone = ?] where a column that is not
    part of the statement ([None]) keeps its value. *)
Definition assign (e p : option string) (c : Contact) : Contact :=
  mkContact (id c) (name c)
    (match e with Some e' => e' | None => email c end)
    (match p with Some p' => p' | None => phone c end).

(** A row other than [cid] already holds one of the values being written. *)
Definition collides (cid : Z) (e p : option string) (t : Table) : bool :=
  existsb
    (fun c =>
       negb (id c =? cid)
       && ((match e with Some e' => String.eqb (email c) e' | None => false end)
           || (match p with Some p' => String.eqb (phone c) p' | None => false end)))
    t.

(** [UPDATE contacts SET ... WHERE contacts.id = ?]: one statement for all the
    changed attributes of the object; it is applied whole or not at all. *)
Definition sql_update (t : Table) (cid : Z) (e p : option string)
  : IntegrityError + Table :=
  if existsb (fun c => id c =? cid) t && collides cid e p t
  then inl UniqueViolation
  else inr (map (fun c => if id c =? cid then assign e p c else c) t).

(** [DELETE FROM contacts WHERE contacts.id = ?]. *)
Definition sql_delete (t : Table) (cid : Z) : Table :=
  filter (fun c => negb (id c =? cid)) t.

(** ** The session: unit of work and transaction *)

(** What the session has recorded and not yet written. *)
Inductive Change : Type :=
| New (n e p : option string)        (* session.add(Contact(name=, email=, phone=)) *)
| Dirty (cid : Z) (e p : option string) (* contact.email = ..., contact.phone = ... *)
| Gone (cid : Z).                    (* session.delete(contact) *)

(** [db] is the committed table, [txn] the table as the open transaction sees
    it, [pending] the recorded changes in the order they were made. *)
Record Session : Type := mkSession
  { db : Table;
    txn : Table;
    pending : list Change }.

(** [setup_database]: a fresh session on the database. *)
Definition setup_database (t : Table) : Session := mkSession t t [].

Definition apply_change (t : Table) (c : Change) : IntegrityError + Table :=
  match c with
  | New n e p => sql_insert t n e p
  | Dirty cid e p => sql_update t cid e p
  | Gone cid => inr (sql_delete t cid)
  end.

(** The flush: the pending changes are written one statement after the other
    inside the transaction; the first statement that fails stops it, and what
    the earlier statements wrote stays in the transaction. *)
Fixpoint flush (t : Table) (cs : list Change) : Table * option IntegrityError :=
  match cs with
  | [] => (t, None)
  | c :: cs' =>
      match apply_change t c with
      | inl err => (t, Some err)
      | inr t' => flush t' cs'
      end
  end.

Definition session_add (s : Session) (c : Change) : Session :=
  mkSession (db s) (txn s) (pending s ++ [c]).

(** [session.commit()]: flush, then make the transaction's table the committed
    one.  When the flush raises, nothing is committed and the session is left
    with whatever the flush wrote, until [rollback]. *)
Definition commit (s : Session) : Session * option IntegrityError :=
  match flush (txn s) (pending s) with
  | (t, None) => (mkSession t t [], None)
  | (t, Some err) => (mkSession (db s) t (pending s), Some err)
  end.

(** [session.rollback()]: the transaction and the recorded changes are
    dropped. *)
Definition rollback (s : Session) : Session :=
  mkSession (db s) (db s) [].

(** The integers the database driver binds to a statement: the 64-bit signed
    ones.  For any other Python integer it raises [OverflowError]. *)
Definition fits_int64 (z : Z) : bool :=
  (- 2 ^ 63 <=? z) && (z <? 2 ^ 63).

(** What a lookup by id gives: one of the three results of
    [Query.one_or_none()], or the [OverflowError] of the driver. *)
Inductive OneOrNone (A : Type) : Type :=
| NoRow
| OneRow (a : A)
| MultipleResultsFound
| OverflowError.
Arguments NoRow {A}.
Arguments OneRow {A} a.
Arguments MultipleResultsFound {A}.
Arguments OverflowError {A}.

Definition one_or_none {A : Type} (l : list A) : OneOrNone A :=
  match l with
  | [] => NoRow
  | [a] => OneRow a
  | _ :: _ :: _ => MultipleResultsFound
  end.

(** [session.query(Contact).filter(Contact.id == contact_id)]. *)
Definition query_by_id (s : Session) (contact_id : Z) : list Contact :=
  filter (fun c => id c =? contact_id) (txn s).

(** [session.query(Contact).filter(Contact.id == contact_id).one_or_none()],
    the lookup [update_contact] and [delete_contact] start with; the id is
    bound to the statement as a parameter. *)
Definition get_contact (s : Session) (contact_id : Z) : OneOrNone Contact :=
  if fits_int64 contact_id
  then one_or_none (query_by_id s contact_id)
  else OverflowError.

(** Python's truth value of an optional string argument: [None] and the empty
    string are false. *)
Definition truthy (a : option string) : bool :=
  match a with
  | None => false
  | Some v => negb (String.eqb v "")
  end.

(** ** The operations of [main.py] *)

(** What an operation tells the user: the success message, or which of its
    error branches ran. *)
Inductive Outcome : Type :=
| Added (new_id : Z)              (* "Contact ... added successfully with ID ..." *)
| Updated                         (* "Contact ID ... has been updated." *)
| Deleted                         (* "Contact with ID ... has been deleted." *)
| NoContact                       (* "No contact found with ID: ..." *)
| IntegrityErr (e : IntegrityError) (* except IntegrityError: "Integrity Error: ..." *)
| OtherErr.                       (* except Exception: "Error ...: ..." *)

Definition is_error (o : Outcome) : bool :=
  match o with
  | Added _ | Updated | Deleted => false
  | NoContact | IntegrityErr _ | OtherErr => true
  end.

(** [new_contact.id] after the commit: the id of the row written last. *)
Definition last_id (t : Table) : Z := last (map id t) 0.

(** [add_contact]; [n], [e], [p] are its arguments [name], [email], [phone],
    [None] when the caller passes none. *)
Definition add_contact (session : Session) (n e p : option string)
  : Session * Outcome :=
  let session := session_add session (New n e p) in
  match commit session with
  | (session, None) => (session, Added (last_id (txn session)))
  | (session, Some err) => (rollback session, IntegrityErr err)
  end.

(** What [update_contact] writes for an argument: [if new_email:] skips an
    argument that is [None] or empty. *)
Definition written (a : option string) : option string :=
  if truthy a then a else None.

Definition update_contact (session : Session) (contact_id : Z)
  (new_email new_phone : option string) : Session * Outcome :=
  match get_contact session contact_id with
  | MultipleResultsFound | OverflowError => (rollback session, OtherErr)
  | NoRow => (session, NoContact)
  | OneRow contact =>
      let e := written new_email in
      let p := written new_phone in
      let session :=
        match e, p with
        | None, None => session
        | _, _ => session_add session (Dirty (id contact) e p)
        end in
      match commit session with
      | (session, None) => (session, Updated)
      | (session, Some err) => (rollback session, IntegrityErr err)
      end
  end.

Definition delete_contact (session : Session) (contact_id : Z)
  : Session * Outcome :=
  match get_contact session contact_id with
  | MultipleResultsFound | OverflowError => (rollback session, OtherErr)
  | NoRow => (session, NoContact)
  | OneRow contact =>
      let session := session_add session (Gone (id contact)) in
      match commit session with
      | (session, None) => (session, Deleted)
      | (session, Some _) => (rollback session, OtherErr)
      end
  end.

(** [OFFSET n] and [LIMIT n] of a query; SQLite reads a negative offset as 0
    and a negative limit as no limit. *)
Definition sql_offset {A : Type} (n : Z) (l : list A) : list A :=
  if n <=? 0 then l else skipn (Z.to_nat n) l.

Definition sql_limit {A : Type} (n : Z) (l : list A) : list A :=
  if n <? 0 then l else firstn (Z.to_nat n) l.

(** [list_contacts]: the value of [contacts], the rows it displays; the empty
    list is shown as "No contacts found on this page.".  The limit and the
    offset are bound to the statement as parameters: when one of them is no
    64-bit integer the query raises and the function ends in its
    [except Exception] branch, "Error listing contacts", which is [None]
    here.  The query has no ORDER BY: the rows come in table order.  The
    argument [show_all] is not read by the function and is left out. *)
Definition list_contacts (session : Session) (page per_page : Z)
  : option (list Contact) :=
  if fits_int64 per_page && fits_int64 ((page - 1) * per_page)
  then Some (sql_limit per_page
               (sql_offset ((page - 1) * per_page) (txn session)))
  else None.

(** ** Search: [ilike] *)

(** ASCII case folding, as SQLite's [lower()] does it. *)
Definition lower_ascii (c : ascii) : ascii :=
  let n := N_of_ascii c in
  if ((65 <=? n) && (n <=? 90))%N then ascii_of_N (n + 32) else c.

Fixpoint lower (s : string) : string :=
  match s with
  | EmptyString => EmptyString
  | String c s' => String (lower_ascii c) (lower s')
  end.

(** A continuation byte of UTF-8, [10xxxxxx]. *)
Definition continuation (c : ascii) : bool :=
  let n := N_of_ascii c in ((128 <=? n) && (n <? 192))%N.

Fixpoint skip_continuation (s : string) : string :=
  match s with
  | EmptyString => EmptyString
  | String c s' => if continuation c then skip_continuation s' else s
  end.

(** What is left of the string [String d s'] after its first character, read
    as SQLite reads one: the byte [d], and with it the continuation bytes
    that follow when [d] is [0xC0] or more. *)
Definition after_char (d : ascii) (s' : string) : string :=
  if (192 <=? N_of_ascii d)%N then skip_continuation s' else s'.

(** SQL's [LIKE] without an ESCAPE clause: in the pattern, [%] stands for any
    run of characters (the empty one too) and [_] for exactly one character;
    every other byte stands for itself. *)
Fixpoint like (pat s : string) : bool :=
  match pat with
  | EmptyString =>
      match s with
      | EmptyString => true
      | String _ _ => false
      end
  | String c pat' =>
      if Ascii.eqb c "%"
      then (fix any_run (s : string) : bool :=
              like pat' s
              || match s with
                 | EmptyString => false
                 | String _ s' => any_run s'
                 end) s
      else match s with
           | EmptyString => false
           | String d s' =>
               if Ascii.eqb c "_"
               then like pat' (after_char d s')
               else Ascii.eqb c d && like pat' s'
           end
  end.

(** [column.ilike(pattern)], which SQLAlchemy writes
    [lower(column) LIKE lower(pattern)] for SQLite; after [lower] on both
    sides the comparison of characters is the exact one. *)
Definition ilike (column pattern : string) : bool :=
  like (lower pattern) (lower column).

(** One [if value: query = query.filter(column.ilike(f"%{value}%"))] step, as
    the test a row has to pass. *)
Definition filter_on (value : option string) (column : string) : bool :=
  match value with
  | Some v => if truthy value then ilike column ("%" ++ v ++ "%") else true
  | None => true
  end.

(** [search_contacts]: the value of [contacts], the rows it displays; the
    empty list is shown as "No contacts found matching the criteria.". *)
Definition search_contacts (session : Session) (n e p : option string)
  : list Contact :=
  filter (fun c => filter_on p (phone c))
    (filter (fun c => filter_on e (email c))
       (filter (fun c => filter_on n (name c)) (txn session))).

(** ** Substrings, for stating what a search finds *)

(** [f] occurs in [s] as a run of consecutive characters. *)
Definition contains (f s : string) : Prop :=
  exists pre post : string, s = (pre ++ f ++ post)%string.

(** The same, not looking at the case of ASCII letters. *)
Definition contains_ci (f s : string) : Prop :=
  contains (lower f) (lower s).

(** A decision procedure for [contains]. *)
Fixpoint starts_with (f s : string) : bool :=
  match f, s with
  | EmptyString, _ => true
  | String _ _, EmptyString => false
  | String c f', String d s' => Ascii.eqb c d && starts_with f' s'
  end.

Fixpoint containsb (f s : string) : bool :=
  starts_with f s
  || match s with
     | EmptyString => false
     | String _ s' => containsb f s'
     end.




(** ** Configuration and logging *)

(** ASCII upper-casing. *)
Definition upper_ascii (c : ascii) : ascii :=
  let n := N_of_ascii c in
  if ((97 <=? n) && (n <=? 122))%N then ascii_of_N (n - 32) else c.

Fixpoint ascii_upper (s : string) : string :=
  match s with
  | EmptyString => EmptyString
  | String c s' => String (upper_ascii c) (ascii_upper s')
  end.

(** The string holds ASCII characters only: every byte is below 128. *)
Fixpoint is_ascii (s : string) : bool :=
  match s with
  | EmptyString => true
  | String c s' => (N_of_ascii c <? 128)%N && is_ascii s'
  end.

Fixpoint has_percent (s : string) : bool :=
  match s with
  | EmptyString => false
  | String c s' => Ascii.eqb c "%" || has_percent s'
  end.

(** The two parts of Python's library that are used and not spelled out
    here.  [str_upper] is [str.upper] on a string that is not pure ASCII
    (Unicode case mapping).  [before_get options defaults value] is
    [BasicInterpolation.before_get] of [configparser] for a value that holds
    a percent sign, with the options visible in the section: the value after
    interpolation, or [None] when it raises an [InterpolationError]. *)
Class Python : Type := {
  str_upper : string -> string;
  before_get :
    list (string * string) -> list (string * string) -> string -> option string
}.

(** [str.upper]. *)
Definition upper {py : Python} (s : string) : string :=
  if is_ascii s then ascii_upper s else str_upper s.

(** A parsed configuration file: the options of its [DEFAULT] section, and
    its other sections, each with its own options, option names as the
    parser stores them, values as written in the file. *)
Record Config : Type := mkConfig
  { defaults : list (string * string);
    sections : list (string * list (string * string)) }.

Fixpoint lookup {V : Type} (k : string) (l : list (string * V)) : option V :=
  match l with
  | [] => None
  | (k', v) :: l' => if String.eqb k' k then Some v else lookup k l'
  end.

Definition has_section (config : Config) (section : string) : bool :=
  match lookup section (sections config) with
  | Some _ => true
  | None => false
  end.

(** The exceptions [read_config] can end with: its own [ValueError], or the
    [InterpolationError] of a [config.get]. *)
Inductive ConfigException : Type :=
| ValueError (message : string)
| InterpolationError.

(** [config.get(section, option, fallback=...)]: the fallback when the
    section or the option is missing (an option is looked for in the section
    and then in the defaults); otherwise the value, which goes through
    interpolation; a value without a percent sign comes out as it is. *)
Definition get {py : Python} (config : Config) (section key fallback : string)
  : ConfigException + string :=
  match lookup section (sections config) with
  | None => inr fallback
  | Some options =>
      let found :=
        match lookup key options with
        | Some v => Some v
        | None => lookup key (defaults config)
        end in
      match found with
      | None => inr fallback
      | Some v =>
          if has_percent v
          then match before_get options (defaults config) v with
               | Some v' => inr v'
               | None => inl InterpolationError
               end
          else inr v
      end
  end.

Definition valid_levels : list string :=
  ["DEBUG"; "INFO"; "WARNING"; "ERROR"; "CRITICAL"].

Definition mem (x : string) (l : list string) : bool :=
  existsb (String.eqb x) l.

(** [read_config]: the exception it ends with, or
    [(db_url, log_file, log_level)]. *)
Definition read_config {py : Python} (config : Config)
  : ConfigException + (string * string * string) :=
  if negb (has_section config "database")
  then inl (ValueError "Missing 'database' section in config.ini.")
  else if negb (has_section config "logging")
  then inl (ValueError "Missing 'logging' section in config.ini.")
  else
    match get config "database" "db_url" "sqlite:///contacts.db" with
    | inl e => inl e
    | inr db_url =>
        match get config "logging" "log_file" "contact_manager.log" with
        | inl e => inl e
        | inr log_file =>
            match get config "logging" "log_level" "INFO" with
            | inl e => inl e
            | inr log_level =>
                let log_level := if negb (mem (upper log_level) valid_levels)
                                 then "INFO" else log_level in
                inr (db_url, log_file, log_level)
            end
        end
    end.

(** The integer attributes of Python's [logging] module that an upper-case
    name can reach: [getattr(logging, name, None)] when it is an [int]. *)
Definition logging_INFO : Z := 20.

Definition logging_attr (attr : string) : option Z :=
  if String.eqb attr "CRITICAL" then Some 50
  else if String.eqb attr "FATAL" then Some 50
  else if String.eqb attr "ERROR" then Some 40
  else if String.eqb attr "WARNING" then Some 30
  else if String.eqb attr "WARN" then Some 30
  else if String.eqb attr "INFO" then Some logging_INFO
  else if String.eqb attr "DEBUG" then Some 10
  else if String.eqb attr "NOTSET" then Some 0
  else None.

(** [setup_logging]: the [level] it hands to [logging.basicConfig]. *)
Definition setup_logging {py : Python} (log_file log_level : string) : Z :=
  match logging_attr (upper log_level) with
  | Some numeric_level => numeric_level
  | None => logging_INFO
  end.

(** The level the program logs at for a configuration, as [main] chains the
    two calls; [None] when [read_config] raises. *)
Definition effective_level {py : Python} (config : Config) : option Z :=
  match read_config config with
  | inl _ => None
  | inr (_, log_file, log_level) => Some (setup_logging log_file log_level)
  end.

(** ** Runs of the program *)

(** One mutating call on the session. *)
Inductive Call : Type :=
| CallAdd (n e p : option string)
| CallUpdate (contact_id : Z) (new_email new_phone : option string)
| CallDelete (contact_id : Z).

Definition run (s : Session) (c : Call) : Session * Outcome :=
  match c with
  | CallAdd n e p => add_contact s n e p
  | CallUpdate cid e p => update_contact s cid e p
  | CallDelete cid => delete_contact s cid
  end.

(** The sessions a sequence of calls can produce from an empty table. *)
Inductive reachable : Session -> Prop :=
| reachable_init : reachable (setup_database [])
| reachable_step s c : reachable s -> reachable (fst (run s c)).

(** A session between two calls: nothing recorded, no open change. *)
Definition clean (s : Session) : Prop :=
  txn s = db s /\ pending s = [].

(** The table keeps its rows in strictly increasing id order. *)
Definition id_ordered (t : Table) : Prop :=
  StronglySorted Z.lt (map id t).

(** The constraints of the schema hold in the table. *)
Definition consistent (t : Table) : Prop :=
  id_ordered t /\ NoDup (map email t) /\ NoDup (map phone t).


(** Every stored id is a 64-bit integer, as the ids of an INTEGER column
    are. *)
Definition ids_fit (t : Table) : Prop :=
  Forall (fun i => fits_int64 i = true) (map id t).

(** Between calls the session is clean and its table is consistent. *)
Definition tidy (s : Session) : Prop :=
  clean s /\ consistent (db s).

(** Between calls the session is clean and its table meets the schema. *)
Definition session_ok (s : Session) : Prop :=
  clean s /\ consistent (db s) /\ ids_fit (db s).

(** ** Sample data *)

Definition alice : Contact := mkContact 1 "Alice Smith" "alice@example.com" "555-1234".
Definition bob : Contact := mkContact 2 "Bob Johnson" "bob@example.com" "555-5678".
Definition two_contacts : Session := setup_database [alice; bob].

(** ** The demo program ([sqlalchemy_crud_example.py]) *)

(** The functions of the demo that differ from those of [main.py]; its
    [add_contact] and [delete_contact] are the ones above, line for line. *)
Module CrudExample.

(** [get_all_contacts]: [session.query(Contact).all()]. *)
Definition get_all_contacts (session : Session) : list Contact :=
  txn session.

(** [update_contact_email]: the new email is assigned whatever it is, the
    empty string too; [Updated] stands for its success message, which also
    quotes the new email. *)
Definition update_contact_email (session : Session) (contact_id : Z)
  (new_email : string) : Session * Outcome :=
  match get_contact session contact_id with
  | MultipleResultsFound | OverflowError => (rollback session, OtherErr)
  | NoRow => (session, NoContact)
  | OneRow contact =>
      let session :=
        session_add session (Dirty (id contact) (Some new_email) None) in
      match commit session with
      | (session, None) => (session, Updated)
      | (session, Some err) => (rollback session, IntegrityErr err)
      end
  end.

(** [search_contacts(session, keyword)]: one keyword, looked for in the three
    columns, the conditions joined by [|]. *)
Definition search_contacts (session : Session) (keyword : string)
  : list Contact :=
  filter
    (fun c =>
       ilike (name c) ("%" ++ keyword ++ "%")
       || ilike (email c) ("%" ++ keyword ++ "%")
       || ilike (phone c) ("%" ++ keyword ++ "%"))
    (txn session).

End CrudExample.

(** ** The command line ([main]) *)

(** The parsed arguments of a subcommand.  [--name], [--email] and [--phone]
    of [add] are required, so they are strings; the options of [update] and
    [search] may be missing. *)
Inductive Command : Type :=
| CmdAdd (n e p : string)
| CmdList (show_all : bool) (page per_page : Z)
| CmdUpdate (contact_id : Z) (e p : option string)
| CmdDelete (contact_id : Z)
| CmdSearch (n e p : option string).

(** What one run of [main] prints. *)
Inductive Printed : Type :=
| Help                          (* parser.print_help() *)
| ConfigError (message : string) (* print(e) for the ValueError of read_config *)
| Traceback                     (* an exception main does not catch *)
| Told (o : Outcome)            (* the message of add, update or delete *)
| Listed (contacts : list Contact)
| ListFailed                    (* "Error listing contacts: ..." *)
| Found (contacts : list Contact)
| NeedField                     (* "Please provide at least one field to update ..." *)
| NeedCriteria.                 (* "Please provide at least one search criteria ..." *)

(** The [if args.command == ...] chain of [main]. *)
Definition execute (session : Session) (args : Command) : Session * Printed :=
  match args with
  | CmdAdd n e p =>
      let (session, o) := add_contact session (Some n) (Some e) (Some p) in
      (session, Told o)
  | CmdList _ page per_page =>
      match list_contacts session page per_page with
      | Some contacts => (session, Listed contacts)
      | None => (session, ListFailed)
      end
  | CmdUpdate contact_id e p =>
      if negb (truthy e) && negb (truthy p)
      then (session, NeedField)
      else
        let (session, o) := update_contact session contact_id e p in
        (session, Told o)
  | CmdDelete contact_id =>
      let (session, o) := delete_contact session contact_id in
      (session, Told o)
  | CmdSearch n e p =>
      if negb (truthy n) && negb (truthy e) && negb (truthy p)
      then (session, NeedCriteria)
      else (session, Found (search_contacts session n e p))
  end.

(** [main] on the parsed command line ([None]: no subcommand), the parsed
    [config.ini] and the table of the configured database: the table it
    leaves, the log level it configured, if it came that far, and what it
    printed. *)
Definition main {py : Python} (args : option Command) (config : Config)
  (t : Table) : Table * option Z * Printed :=
  match args with
  | None => (t, None, Help)
  | Some args =>
      match read_config config with
      | inl (ValueError e) => (t, None, ConfigError e)
      | inl InterpolationError => (t, None, Traceback)
      | inr (db_url, log_file, log_level) =>
          let level := setup_logging log_file log_level in
          let session := setup_database t in
          let (session, out) := execute session args in
          (db session, Some level, out)
      end
  end.

(** The pages 1 to [n] of [list_contacts], one after the other; [None] when
    one of the calls ends in its error branch. *)
Fixpoint pages (session : Session) (per_page : Z) (n : nat)
  : option (list Contact) :=
  match n with
  | O => Some []
  | S k =>
      match pages session per_page k,
            list_contacts session (Z.of_nat (S k)) per_page with
      | Some before, Some page => Some (before ++ page)
      | _, _ => None
      end
  end.

(** Two optional arguments that differ at most in the case of ASCII letters. *)
Definition same_ci (a b : option string) : Prop :=
  option_map lower a = option_map lower b.



(** A configuration with the two sections [read_config] requires. *)
Definition sample_config : Config :=
  mkConfig []
    [("database", [("db_url", "sqlite:///contacts.db")]);
     ("logging", [("log_file", "cms.log"); ("log_level", "warning")])].


(** An instance of the library parts for the examples, whose strings are
    ASCII and hold no percent sign, so that neither part is ever asked. *)
Definition sample_python : Python :=
  {| str_upper := fun s => s; before_get := fun _ _ _ => None |}.

(** * Properties *)

(** ** The session between calls *)

Section SessionFacts.

Lemma clean_eta (s : Session) : clean s -> s = setup_database (db s).
Proof.
  destruct s as [d t p]. unfold clean. simpl.
  intros [Ht Hp]. subst. reflexivity.
Qed.

Lemma clean_inv (s : Session) : clean s -> exists t, s = setup_database t.
Proof. intros H. exists (db s). now apply clean_eta. Qed.

Lemma clean_setup (t : Table) : clean (setup_database t).
Proof. split; reflexivity. Qed.

Lemma assign_nothing (c : Contact) : assign None None c = c.
Proof. destruct c. reflexivity. Qed.

Lemma collides_nothing (t : Table) (cid : Z) :
  collides cid None None t = false.
Proof.
  unfold collides. apply not_true_iff_false.
  rewrite existsb_exists. intros [c [_ H]].
  simpl in H. rewrite andb_false_r in H. discriminate.
Qed.

Lemma sql_update_nothing (t : Table) (cid : Z) :
  sql_update t cid None None = inr t.
Proof.
  unfold sql_update.
  rewrite collides_nothing, andb_false_r.
  replace (map (fun c => if id c =? cid then assign None None c else c) t)
    with (map (fun c : Contact => c) t).
  - now rewrite map_id.
  - apply map_ext. intros c. rewrite assign_nothing.
    now destruct (id c =? cid).
Qed.

Lemma add_contact_clean (t : Table) (n e p : option string) :
  add_contact (setup_database t) n e p =
  match sql_insert t n e p with
  | inr t' => (setup_database t', Added (last_id t'))
  | inl err => (setup_database t, IntegrityErr err)
  end.
Proof.
  unfold add_contact, commit, session_add. simpl.
  destruct (sql_insert t n e p); reflexivity.
Qed.

Lemma update_contact_clean (t : Table) (cid : Z) (ne np : option string) :
  update_contact (setup_database t) cid ne np =
  if fits_int64 cid
  then
    match one_or_none (filter (fun c => id c =? cid) t) with
    | MultipleResultsFound | OverflowError => (setup_database t, OtherErr)
    | NoRow => (setup_database t, NoContact)
    | OneRow c =>
        match sql_update t (id c) (written ne) (written np) with
        | inr t' => (setup_database t', Updated)
        | inl err => (setup_database t, IntegrityErr err)
        end
    end
  else (setup_database t, OtherErr).
Proof.
  unfold update_contact, get_contact, query_by_id. simpl.
  destruct (fits_int64 cid); [|reflexivity].
  destruct (one_or_none _) as [|c| |]; try reflexivity.
  destruct (written ne) as [e|] eqn:He, (written np) as [p|] eqn:Hp;
    unfold commit, session_add; simpl;
    try (match goal with
         | |- context [sql_update ?a ?b ?c ?d] =>
             destruct (sql_update a b c d); reflexivity
         end).
  rewrite sql_update_nothing. reflexivity.
Qed.

Lemma delete_contact_clean (t : Table) (cid : Z) :
  delete_contact (setup_database t) cid =
  if fits_int64 cid
  then
    match one_or_none (filter (fun c => id c =? cid) t) with
    | MultipleResultsFound | OverflowError => (setup_database t, OtherErr)
    | NoRow => (setup_database t, NoContact)
    | OneRow c => (setup_database (sql_delete t (id c)), Deleted)
    end
  else (setup_database t, OtherErr).
Proof.
  unfold delete_contact, get_contact, query_by_id. simpl.
  destruct (fits_int64 cid); [|reflexivity].
  destruct (one_or_none _); reflexivity.
Qed.

Lemma get_contact_clean (t : Table) (cid : Z) :
  get_contact (setup_database t) cid =
  if fits_int64 cid
  then one_or_none (filter (fun c => id c =? cid) t)
  else OverflowError.
Proof. reflexivity. Qed.

End SessionFacts.

(** ** Tables: ids, order and the unique columns *)

Section TableFacts.

Lemma max_above (l : list Z) (i x : Z) :
  In x (i :: l) -> x <= fold_right Z.max i l.
Proof.
  induction l as [|y l IH]; simpl.
  - intros [<- | []]. lia.
  - intros [<- | [<- | H]].
    + assert (i <= fold_right Z.max i l) by (apply IH; now left). lia.
    + lia.
    + assert (x <= fold_right Z.max i l) by (apply IH; now right). lia.
Qed.

Lemma next_rowid_above (t : Table) (i : Z) :
  In i (map id t) -> i < next_rowid t.
Proof.
  unfold next_rowid. destruct (map id t) as [|j l].
  - intros [].
  - intros H. apply max_above in H. lia.
Qed.

Lemma sorted_snoc (l : list Z) (x : Z) :
  StronglySorted Z.lt l -> (forall y, In y l -> y < x) ->
  StronglySorted Z.lt (l ++ [x]).
Proof.
  induction 1 as [|a l Hs IH Ha]; simpl; intros Hx.
  - repeat constructor.
  - constructor.
    + apply IH. intros y Hy. apply Hx. now right.
    + rewrite Forall_forall in *. intros y Hy.
      apply in_app_or in Hy. destruct Hy as [Hy | [<- | []]].
      * now apply Ha.
      * apply Hx. now left.
Qed.

Lemma sorted_NoDup (l : list Z) : StronglySorted Z.lt l -> NoDup l.
Proof.
  induction 1 as [|a l Hs IH Ha]; constructor; trivial.
  intros Hin. rewrite Forall_forall in Ha.
  specialize (Ha a Hin). lia.
Qed.

Lemma NoDup_snoc {A : Type} (l : list A) (x : A) :
  NoDup l -> ~ In x l -> NoDup (l ++ [x]).
Proof.
  intros Hl Hx. apply NoDup_rev in Hl.
  rewrite <- (rev_involutive (l ++ [x])). apply NoDup_rev.
  rewrite rev_app_distr. simpl. constructor; trivial.
  now rewrite <- in_rev.
Qed.

Lemma email_taken_spec (e : string) (t : Table) :
  email_taken e t = true <-> In e (map email t).
Proof.
  unfold email_taken. rewrite existsb_exists, in_map_iff.
  split; intros [c [H1 H2]]; exists c.
  - apply String.eqb_eq in H2. tauto.
  - rewrite String.eqb_eq. tauto.
Qed.

Lemma phone_taken_spec (p : string) (t : Table) :
  phone_taken p t = true <-> In p (map phone t).
Proof.
  unfold phone_taken. rewrite existsb_exists, in_map_iff.
  split; intros [c [H1 H2]]; exists c.
  - apply String.eqb_eq in H2. tauto.
  - rewrite String.eqb_eq. tauto.
Qed.

Lemma has_row_spec (cid : Z) (t : Table) :
  existsb (fun c => id c =? cid) t = true <-> In cid (map id t).
Proof.
  rewrite existsb_exists, in_map_iff.
  split; intros [c [H1 H2]]; exists c.
  - apply Z.eqb_eq in H2. tauto.
  - rewrite Z.eqb_eq. tauto.
Qed.

(** A successful INSERT appends exactly the new row. *)
Lemma sql_insert_inr (t t' : Table) (n e p : option string) :
  sql_insert t n e p = inr t' ->
  exists n' e' p',
    n = Some n' /\ e = Some e' /\ p = Some p'
    /\ ~ In e' (map email t) /\ ~ In p' (map phone t)
    /\ t' = t ++ [mkContact (next_rowid t) n' e' p'].
Proof.
  unfold sql_insert.
  destruct n as [n'|], e as [e'|], p as [p'|]; try discriminate.
  destruct (email_taken e' t) eqn:He; simpl; try discriminate.
  destruct (phone_taken p' t) eqn:Hp; simpl; try discriminate.
  intros H. injection H as <-. exists n', e', p'.
  repeat split; trivial.
  - rewrite <- email_taken_spec. congruence.
  - rewrite <- phone_taken_spec. congruence.
Qed.

Lemma sql_insert_consistent (t t' : Table) (n e p : option string) :
  consistent t -> sql_insert t n e p = inr t' -> consistent t'.
Proof.
  intros (Hid & He & Hp) H.
  apply sql_insert_inr in H.
  destruct H as (n' & e' & p' & _ & _ & _ & He' & Hp' & ->).
  unfold consistent, id_ordered. rewrite !map_app. simpl.
  repeat split.
  - apply sorted_snoc; trivial. apply next_rowid_above.
  - now apply NoDup_snoc.
  - now apply NoDup_snoc.
Qed.

Lemma sorted_filter (h : Contact -> bool) (t : Table) :
  id_ordered t -> id_ordered (filter h t).
Proof.
  unfold id_ordered. induction t as [|c t IH]; simpl; trivial.
  intros H. inversion H as [|a l Hs Ha]; subst.
  destruct (h c); simpl; auto.
  constructor; auto.
  rewrite Forall_forall in *. intros y Hy. apply Ha.
  rewrite in_map_iff in *. destruct Hy as [d [Hd Hin]].
  exists d. apply filter_In in Hin. tauto.
Qed.

Lemma NoDup_map_filter {B : Type} (g : Contact -> B) (h : Contact -> bool)
  (t : Table) :
  NoDup (map g t) -> NoDup (map g (filter h t)).
Proof.
  induction t as [|c t IH]; simpl; trivial.
  intros H. inversion H as [|a l Hn Hd]; subst.
  destruct (h c); simpl; auto.
  constructor; auto.
  intros Hin. apply Hn.
  rewrite in_map_iff in *. destruct Hin as [d [Hd' Hin]].
  exists d. apply filter_In in Hin. tauto.
Qed.

Lemma sql_delete_consistent (t : Table) (cid : Z) :
  consistent t -> consistent (sql_delete t cid).
Proof.
  intros (Hid & He & Hp). unfold sql_delete. repeat split.
  - now apply sorted_filter.
  - now apply NoDup_map_filter.
  - now apply NoDup_map_filter.
Qed.

End TableFacts.

(** ** UPDATE keeps the table consistent *)

Section UpdateFacts.

Variable cid : Z.
Variables e p : option string.

Let f (c : Contact) : Contact := if id c =? cid then assign e p c else c.

Lemma update_keeps_ids (t : Table) : map id (map f t) = map id t.
Proof.
  rewrite map_map. apply map_ext. intros c. unfold f.
  now destruct (id c =? cid).
Qed.

Lemma update_without_row (t : Table) :
  ~ In cid (map id t) -> map f t = t.
Proof.
  intros H. rewrite <- (map_id t) at 2. apply map_ext_in.
  intros c Hc. unfold f. destruct (Z.eqb_spec (id c) cid) as [E|E]; trivial.
  exfalso. apply H. rewrite <- E. now apply in_map.
Qed.

(** One column under the update: [v] is what the statement writes to it. *)
Section Column.

Variable col : Contact -> string.
Variable v : option string.
Hypothesis col_hit :
  forall c, id c = cid -> col (f c) = match v with Some x => x | None => col c end.

Lemma updated_column_values (t : Table) (x : string) :
  In x (map col (map f t)) ->
  In x (map col t) \/ (v = Some x /\ In cid (map id t)).
Proof.
  induction t as [|c t IH]; simpl; [tauto|].
  intros [H | H].
  - destruct (Z.eq_dec (id c) cid) as [E|E].
    + rewrite (col_hit c E) in H. destruct v as [y|].
      * right. subst. tauto.
      * tauto.
    + unfold f in H. rewrite (proj2 (Z.eqb_neq _ _) E) in H. tauto.
  - destruct (IH H) as [H' | [H1 H2]]; tauto.
Qed.

Lemma NoDup_column_update (t : Table) :
  NoDup (map id t) -> NoDup (map col t) ->
  (forall c x, In c t -> id c <> cid -> v = Some x -> col c <> x) ->
  NoDup (map col (map f t)).
Proof.
  induction t as [|c t IH]; simpl; intros Hid Hcol Hfree.
  - constructor.
  - inversion Hid as [|i l Hi Hid']; subst.
    inversion Hcol as [|y l Hy Hcol']; subst.
    constructor.
    + intros Hin. destruct (Z.eq_dec (id c) cid) as [E|E].
      * rewrite update_without_row in Hin by congruence.
        rewrite (col_hit c E) in Hin. destruct v as [x|]; [|tauto].
        apply in_map_iff in Hin. destruct Hin as [d [Hd Hin]].
        apply (Hfree d x); auto.
        intros E'. apply Hi. rewrite E, <- E'. now apply in_map.
      * unfold f in Hin at 1.
        rewrite (proj2 (Z.eqb_neq _ _) E) in Hin.
        apply updated_column_values in Hin.
        destruct Hin as [Hin | [Hv _]]; [tauto|].
        apply (Hfree c (col c)); auto.
    + apply IH; auto.
Qed.

End Column.

Lemma collides_false (t : Table) :
  collides cid e p t = false ->
  forall c, In c t -> id c <> cid ->
    (forall x, e = Some x -> email c <> x)
    /\ (forall x, p = Some x -> phone c <> x).
Proof.
  unfold collides. intros H c Hc Hne.
  assert (Hc' : negb (id c =? cid)
                && ((match e with Some e' => String.eqb (email c) e' | None => false end)
                    || (match p with Some p' => String.eqb (phone c) p' | None => false end))
                = false).
  { apply not_true_iff_false. intros Ht.
    apply not_true_iff_false in H. apply H.
    apply existsb_exists. now exists c. }
  rewrite (proj2 (Z.eqb_neq _ _) Hne) in Hc'. simpl in Hc'.
  apply orb_false_elim in Hc'. destruct Hc' as [H1 H2].
  split; intros x ->.
  - intros E. rewrite <- E, String.eqb_refl in H1. discriminate.
  - intros E. rewrite <- E, String.eqb_refl in H2. discriminate.
Qed.

Lemma sql_update_inr (t t' : Table) :
  sql_update t cid e p = inr t' -> t' = map f t.
Proof.
  unfold sql_update. destruct (_ && _); [discriminate|].
  intros H. now injection H as <-.
Qed.

Lemma sql_update_consistent (t t' : Table) :
  consistent t -> sql_update t cid e p = inr t' -> consistent t'.
Proof.
  intros (Hid & He & Hp) H.
  assert (Ht' := sql_update_inr _ _ H). subst t'.
  unfold sql_update in H.
  destruct (existsb _ t) eqn:Hrow.
  - simpl in H. destruct (collides cid e p t) eqn:Hc; [discriminate|].
    pose proof (collides_false t Hc) as Hfree.
    unfold consistent, id_ordered. rewrite update_keeps_ids.
    repeat split; trivial.
    + apply NoDup_column_update with (v := e); trivial.
      * intros c E. unfold f. rewrite (proj2 (Z.eqb_eq _ _) E).
        now destruct e.
      * now apply sorted_NoDup.
      * intros c x Hin Hne Hx. now apply (Hfree c Hin Hne).
    + apply NoDup_column_update with (v := p); trivial.
      * intros c E. unfold f. rewrite (proj2 (Z.eqb_eq _ _) E).
        now destruct p.
      * now apply sorted_NoDup.
      * intros c x Hin Hne Hx. now apply (Hfree c Hin Hne).
  - rewrite update_without_row.
    + repeat split; trivial.
    + rewrite <- has_row_spec. congruence.
Qed.

End UpdateFacts.

(** ** Looking a row up by id *)

Section LookupFacts.

Variable cid : Z.

Let hit (c : Contact) : bool := id c =? cid.

Lemma lookup_absent (t : Table) :
  ~ In cid (map id t) -> filter hit t = [].
Proof.
  induction t as [|c t IH]; simpl; trivial.
  intros H. unfold hit at 1.
  destruct (Z.eqb_spec (id c) cid) as [E|E]; [tauto|].
  apply IH. tauto.
Qed.

Lemma lookup_present (t : Table) :
  NoDup (map id t) -> In cid (map id t) ->
  exists c, filter hit t = [c] /\ In c t /\ id c = cid.
Proof.
  induction t as [|c t IH]; simpl; [tauto|].
  intros Hd Hin. inversion Hd as [|i l Hi Hd']; subst.
  unfold hit at 1. destruct (Z.eqb_spec (id c) cid) as [E|E].
  - exists c. rewrite lookup_absent by congruence. tauto.
  - destruct Hin as [Hin | Hin]; [tauto|].
    destruct (IH Hd' Hin) as (d & H1 & H2 & H3).
    exists d. tauto.
Qed.

End LookupFacts.

(** ** The invariant of a run *)

Section Invariant.

Lemma add_contact_tidy (s : Session) (n e p : option string) :
  tidy s -> tidy (fst (add_contact s n e p)).
Proof.
  intros [Hc Ht]. rewrite (clean_eta s Hc), add_contact_clean.
  destruct (sql_insert (db s) n e p) as [err|t'] eqn:E; simpl.
  - split; [apply clean_setup | exact Ht].
  - split; [apply clean_setup |].
    simpl. eapply sql_insert_consistent; eassumption.
Qed.

Lemma update_contact_tidy (s : Session) (cid : Z) (ne np : option string) :
  tidy s -> tidy (fst (update_contact s cid ne np)).
Proof.
  intros [Hc Ht]. rewrite (clean_eta s Hc), update_contact_clean.
  destruct (fits_int64 cid);
    [|split; [apply clean_setup | exact Ht]].
  destruct (one_or_none _) as [|c| |]; simpl;
    try (split; [apply clean_setup | exact Ht]).
  destruct (sql_update _ _ _ _) as [err|t'] eqn:E; simpl.
  - split; [apply clean_setup | exact Ht].
  - split; [apply clean_setup |].
    simpl. eapply sql_update_consistent; eassumption.
Qed.

Lemma delete_contact_tidy (s : Session) (cid : Z) :
  tidy s -> tidy (fst (delete_contact s cid)).
Proof.
  intros [Hc Ht]. rewrite (clean_eta s Hc), delete_contact_clean.
  destruct (fits_int64 cid);
    [|split; [apply clean_setup | exact Ht]].
  destruct (one_or_none _) as [|c| |]; simpl;
    try (split; [apply clean_setup | exact Ht]).
  split; [apply clean_setup |].
  simpl. now apply sql_delete_consistent.
Qed.

Lemma run_tidy (s : Session) (c : Call) :
  tidy s -> tidy (fst (run s c)).
Proof.
  destruct c; simpl.
  - apply add_contact_tidy.
  - apply update_contact_tidy.
  - apply delete_contact_tidy.
Qed.

Lemma reachable_tidy (s : Session) : reachable s -> tidy s.
Proof.
  induction 1 as [|s c _ IH].
  - split; [apply clean_setup |].
    simpl. repeat split; constructor.
  - now apply run_tidy.
Qed.

End Invariant.

(** ** Create *)

Section Create.

Lemma last_id_snoc (t : Table) (c : Contact) : last_id (t ++ [c]) = id c.
Proof. unfold last_id. rewrite map_app. simpl. apply last_last. Qed.

Lemma sql_insert_fresh (t : Table) (n e p : string) :
  ~ In e (map email t) -> ~ In p (map phone t) ->
  sql_insert t (Some n) (Some e) (Some p)
  = inr (t ++ [mkContact (next_rowid t) n e p]).
Proof.
  intros He Hp. unfold sql_insert.
  rewrite <- email_taken_spec in He. rewrite <- phone_taken_spec in Hp.
  apply not_true_is_false in He, Hp. now rewrite He, Hp.
Qed.








End Create.

(** ** Failed calls *)

Section Rollback.

(** [rollback] after a flush that stopped half way: whatever the transaction
    had written is gone, the committed table is untouched. *)
Lemma rollback_discards (s : Session) :
  db (rollback s) = db s /\ clean (rollback s).
Proof. split; [reflexivity | split; reflexivity]. Qed.

Lemma commit_failure_keeps_db (s s' : Session) (err : IntegrityError) :
  commit s = (s', Some err) -> db s' = db s.
Proof.
  unfold commit. destruct (flush (txn s) (pending s)) as [t [e|]].
  - intros H. injection H as <- _. reflexivity.
  - discriminate.
Qed.

(** C4: a call of [add_contact], [update_contact] or [delete_contact] that
    ends in one of its error branches (integrity error, no contact with that
    id, any other exception) leaves the session, and with it the stored
    table, exactly as it was before the call. *)
Theorem failed_call_changes_nothing (s : Session) (c : Call) :
  clean s -> is_error (snd (run s c)) = true -> fst (run s c) = s.
Proof.
  intros Hc. destruct (clean_inv s Hc) as [t ->].
  destruct c as [n e p | cid e p | cid]; simpl.
  - rewrite add_contact_clean.
    destruct (sql_insert t n e p); simpl; [reflexivity | discriminate].
  - rewrite update_contact_clean.
    destruct (fits_int64 cid); [|reflexivity].
    destruct (one_or_none _) as [|c| |]; simpl; try reflexivity.
    destruct (sql_update _ _ _ _); simpl; [reflexivity | discriminate].
  - rewrite delete_contact_clean.
    destruct (fits_int64 cid); [|reflexivity].
    destruct (one_or_none _) as [|c| |]; simpl; try reflexivity.
    discriminate.
Qed.

Lemma failed_call_changes_nothing_witness :
  fst (run two_contacts
         (CallUpdate 1 (Some "alice.smith@example.com") (Some "555-5678")))
  = two_contacts.
Proof.
  apply failed_call_changes_nothing.
  - apply clean_setup.
  - reflexivity.
Defined.

End Rollback.

(** ** What every reachable table satisfies *)

Section Reachable.

Lemma two_contacts_reachable : reachable two_contacts.
Proof.
  change two_contacts with
    (fst (run (fst (run (setup_database [])
                      (CallAdd (Some "Alice Smith") (Some "alice@example.com")
                         (Some "555-1234"))))
            (CallAdd (Some "Bob Johnson") (Some "bob@example.com")
               (Some "555-5678")))).
  apply reachable_step, reachable_step, reachable_init.
Qed.

Lemma stored_id_fits (t : Table) (c : Contact) :
  ids_fit t -> In c t -> fits_int64 (id c) = true.
Proof.
  unfold ids_fit. rewrite Forall_forall. intros H Hin.
  apply H. now apply in_map.
Qed.

Lemma two_contacts_ok : session_ok two_contacts.
Proof.
  destruct (reachable_tidy _ two_contacts_reachable) as [Hc Ht].
  split; [exact Hc|]. split; [exact Ht|]. repeat constructor.
Qed.

Lemma NoDup_map_eq {B : Type} (g : Contact -> B) (t : Table) (a b : Contact) :
  NoDup (map g t) -> In a t -> In b t -> g a = g b -> a = b.
Proof.
  induction t as [|c t IH]; simpl; [tauto|].
  intros H Ha Hb E. inversion H as [|x l Hx Hd]; subst.
  destruct Ha as [-> | Ha], Hb as [-> | Hb]; trivial.
  - exfalso. apply Hx. rewrite E. now apply in_map.
  - exfalso. apply Hx. rewrite <- E. now apply in_map.
  - now apply IH.
Qed.

(** C5 (as the code has it): in every table reachable from the empty one by
    calls of [add_contact], [update_contact] and [delete_contact], no email
    is stored twice and no phone is stored twice: the list of the emails of
    the rows has no repetition, and neither has the list of their phones.
    Nothing is said about empty strings: they are stored as given. *)
Theorem reachable_unique_email_phone (s : Session) :
  reachable s ->
  NoDup (map email (db s)) /\ NoDup (map phone (db s)).
Proof.
  intros H. apply reachable_tidy in H. destruct H as [_ (_ & He & Hp)].
  now split.
Qed.

Lemma reachable_unique_email_phone_witness :
  NoDup (map email (db two_contacts)) /\ NoDup (map phone (db two_contacts)).
Proof.
  exact (reachable_unique_email_phone two_contacts two_contacts_reachable).
Defined.

(** C5, the claim as written fails: one [add_contact] with empty strings on
    the empty table reaches a table whose only contact has an empty name,
    email and phone. *)
Lemma reachable_with_empty_fields :
  reachable (setup_database [mkContact 1 "" "" ""])
  /\ In (mkContact 1 "" "" "") (db (setup_database [mkContact 1 "" "" ""])).
Proof.
  split.
  - change (setup_database [mkContact 1 "" "" ""]) with
      (fst (run (setup_database []) (CallAdd (Some "") (Some "") (Some "")))).
    apply reachable_step, reachable_init.
  - now left.
Qed.

End Reachable.

(** ** Delete *)

Section Delete.

(** C8 (as the code has it): on a clean session over a table that meets the
    schema, for an id that is a 64-bit integer, [delete_contact] removes the
    row with that id when there is one (the other rows stay, in order) and
    otherwise answers "No contact found" without touching the session; after
    the call the lookup of that id finds no row, and a second
    [delete_contact] answers "No contact found".  For any other integer the
    lookup raises, and [delete_contact] ends in its [except Exception]
    branch, the session as it was. *)
Theorem delete_contact_then_not_found (s : Session) (cid : Z) :
  session_ok s ->
  (fits_int64 cid = true ->
   (In cid (map id (db s)) ->
    snd (delete_contact s cid) = Deleted
    /\ db (fst (delete_contact s cid))
       = filter (fun c => negb (id c =? cid)) (db s))
   /\ (~ In cid (map id (db s)) -> delete_contact s cid = (s, NoContact))
   /\ get_contact (fst (delete_contact s cid)) cid = NoRow
   /\ delete_contact (fst (delete_contact s cid)) cid
      = (fst (delete_contact s cid), NoContact))
  /\ (fits_int64 cid = false ->
      get_contact s cid = OverflowError
      /\ delete_contact s cid = (s, OtherErr)).
Proof.
  intros [Hc [(Hid & _) _]]. destruct (clean_inv s Hc) as [t ->].
  simpl in Hid. apply sorted_NoDup in Hid. simpl.
  rewrite delete_contact_clean, get_contact_clean. split.
  - intros Hfit. rewrite Hfit.
    assert (Hgone : forall u, ~ In cid (map id u) ->
              get_contact (setup_database u) cid = NoRow
              /\ delete_contact (setup_database u) cid
                 = (setup_database u, NoContact)).
    { intros u Hu. rewrite delete_contact_clean, get_contact_clean, Hfit.
      now rewrite (lookup_absent cid u Hu). }
    split; [|split].
    + intros Hin.
      destruct (lookup_present cid t Hid Hin) as (c & -> & _ & E).
      simpl. rewrite E. split; reflexivity.
    + intros Hout. now rewrite (lookup_absent cid t Hout).
    + destruct (in_dec Z.eq_dec cid (map id t)) as [Hin | Hout].
      * destruct (lookup_present cid t Hid Hin) as (c & -> & _ & E).
        simpl. rewrite E. apply Hgone.
        intros Hd. apply in_map_iff in Hd. destruct Hd as [d [Ed Hd]].
        unfold sql_delete in Hd. apply filter_In in Hd.
        rewrite (proj2 (Z.eqb_eq _ _) Ed) in Hd. destruct Hd. discriminate.
      * rewrite (lookup_absent cid t Hout). simpl. now apply Hgone.
  - intros Hfit. rewrite Hfit. split; reflexivity.
Qed.

Lemma delete_contact_then_not_found_witness :
  (fits_int64 2 = true ->
   (In 2 (map id (db two_contacts)) ->
    snd (delete_contact two_contacts 2) = Deleted
    /\ db (fst (delete_contact two_contacts 2))
       = filter (fun c => negb (id c =? 2)) (db two_contacts))
   /\ (~ In 2 (map id (db two_contacts)) ->
       delete_contact two_contacts 2 = (two_contacts, NoContact))
   /\ get_contact (fst (delete_contact two_contacts 2)) 2 = NoRow
   /\ delete_contact (fst (delete_contact two_contacts 2)) 2
      = (fst (delete_contact two_contacts 2), NoContact))
  /\ (fits_int64 2 = false ->
      get_contact two_contacts 2 = OverflowError
      /\ delete_contact two_contacts 2 = (two_contacts, OtherErr)).
Proof.
  apply delete_contact_then_not_found. apply two_contacts_ok.
Defined.

(** C8, the claim as written fails: 2^63 is the id of no stored contact, and
    [delete_contact] does not answer "No contact found" for it but ends in
    its [except Exception] branch, "Error deleting contact". *)
Lemma delete_contact_out_of_range :
  ~ In (2 ^ 63) (map id (db two_contacts))
  /\ delete_contact two_contacts (2 ^ 63) = (two_contacts, OtherErr).
Proof.
  split; [|reflexivity].
  simpl. intros [H | [H | []]]; discriminate.
Qed.

End Delete.

(** ** List *)

Section Listing.

Lemma in_firstn {A : Type} (n : nat) (l : list A) (x : A) :
  In x (firstn n l) -> In x l.
Proof.
  revert l. induction n as [|n IH]; intros [|a l]; simpl; try tauto.
  intros [H | H]; [now left | right; now apply IH].
Qed.

Lemma sorted_firstn (n : nat) (l : list Z) :
  StronglySorted Z.lt l -> StronglySorted Z.lt (firstn n l).
Proof.
  intros H. revert n. induction H as [|a l Hs IH Ha]; intros [|n]; simpl;
    try constructor.
  - apply IH.
  - rewrite Forall_forall in *. intros x Hx. apply Ha.
    revert Hx. apply in_firstn.
Qed.

Lemma sorted_skipn (n : nat) (l : list Z) :
  StronglySorted Z.lt l -> StronglySorted Z.lt (skipn n l).
Proof.
  intros H. revert n. induction H as [|a l Hs IH Ha]; intros [|n]; simpl;
    try (now constructor).
  apply IH.
Qed.

Lemma fits_int64_spec (z : Z) :
  fits_int64 z = true <-> - 2 ^ 63 <= z < 2 ^ 63.
Proof.
  unfold fits_int64. rewrite andb_true_iff, Z.leb_le, Z.ltb_lt. tauto.
Qed.

Lemma list_contacts_in_range (s : Session) (page per_page : Z) :
  1 <= page -> 1 <= per_page ->
  per_page < 2 ^ 63 -> (page - 1) * per_page < 2 ^ 63 ->
  list_contacts s page per_page
  = Some (firstn (Z.to_nat per_page)
            (skipn (Z.to_nat ((page - 1) * per_page)) (txn s))).
Proof.
  intros Hp Hpp Hl Ho. unfold list_contacts, sql_limit, sql_offset.
  assert (H0 : 0 <= (page - 1) * per_page) by nia.
  assert (H63 : 0 < 2 ^ 63) by reflexivity.
  rewrite (proj2 (fits_int64_spec per_page)) by lia.
  rewrite (proj2 (fits_int64_spec ((page - 1) * per_page))) by lia.
  simpl. f_equal.
  destruct (Z.ltb_spec per_page 0) as [H|H]; [lia|].
  destruct (Z.leb_spec ((page - 1) * per_page) 0) as [H1|H1]; trivial.
  replace ((page - 1) * per_page) with 0 by lia. reflexivity.
Qed.

(** C2 (as the code has it): on a reachable session, with [page >= 1] and
    [per_page >= 1], when [per_page] and the offset [(page-1)*per_page] are
    below 2^63, [list_contacts] shows the stored contacts, which the table
    holds in ascending id order, after dropping the first [(page-1)*per_page]
    of them and keeping at most [per_page]; the rows shown are in ascending
    id order; and when the table has no more than [(page-1)*per_page] rows
    the result is the empty list, not an error.  When [per_page] or the
    offset is 2^63 or more, the query raises and [list_contacts] ends in its
    error branch. *)
Theorem list_contacts_page (s : Session) (page per_page : Z) :
  reachable s -> 1 <= page -> 1 <= per_page ->
  (per_page < 2 ^ 63 -> (page - 1) * per_page < 2 ^ 63 ->
   exists contacts,
     list_contacts s page per_page = Some contacts
     /\ contacts
        = firstn (Z.to_nat per_page)
            (skipn (Z.to_nat ((page - 1) * per_page)) (db s))
     /\ id_ordered (db s)
     /\ id_ordered contacts
     /\ (Z.of_nat (List.length (db s)) <= (page - 1) * per_page ->
         contacts = []))
  /\ (2 ^ 63 <= per_page \/ 2 ^ 63 <= (page - 1) * per_page ->
      list_contacts s page per_page = None).
Proof.
  intros Hr Hp Hpp. apply reachable_tidy in Hr. destruct Hr as [Hc (Hid & _)].
  destruct (clean_inv s Hc) as [t ->]. simpl in *. split.
  - intros Hl Ho. eexists. split; [now apply list_contacts_in_range|].
    simpl. repeat split; trivial.
    + unfold id_ordered. rewrite <- firstn_map, <- skipn_map.
      now apply sorted_firstn, sorted_skipn.
    + intros Hlen. rewrite skipn_all2 by lia. apply firstn_nil.
  - intros H. unfold list_contacts.
    assert (E : fits_int64 per_page && fits_int64 ((page - 1) * per_page)
                = false).
    { apply not_true_iff_false. rewrite andb_true_iff, !fits_int64_spec.
      lia. }
    now rewrite E.
Qed.

Lemma list_contacts_page_witness :
  (1 < 2 ^ 63 -> (2 - 1) * 1 < 2 ^ 63 ->
   exists contacts,
     list_contacts two_contacts 2 1 = Some contacts
     /\ contacts
        = firstn (Z.to_nat 1) (skipn (Z.to_nat ((2 - 1) * 1)) (db two_contacts))
     /\ id_ordered (db two_contacts)
     /\ id_ordered contacts
     /\ (Z.of_nat (List.length (db two_contacts)) <= (2 - 1) * 1 ->
         contacts = []))
  /\ (2 ^ 63 <= 1 \/ 2 ^ 63 <= (2 - 1) * 1 ->
      list_contacts two_contacts 2 1 = None).
Proof.
  apply list_contacts_page.
  - apply two_contacts_reachable.
  - lia.
  - lia.
Defined.

(** C2, the claim as written fails: with [page = 1] and [per_page = 2^63]
    the call does not return the contacts, nor an empty page, but ends in
    the error branch, "Error listing contacts". *)
Lemma list_contacts_limit_out_of_range :
  list_contacts two_contacts 1 (2 ^ 63) = None.
Proof. reflexivity. Qed.

(** The second page of ten on a table of exactly ten rows is empty. *)
Lemma list_contacts_second_page_of_ten (s : Session) :
  reachable s -> List.length (db s) = 10%nat ->
  list_contacts s 2 10 = Some [].
Proof.
  intros Hr Hlen.
  destruct (clean_inv s (proj1 (reachable_tidy s Hr))) as [t ->].
  simpl in Hlen.
  rewrite list_contacts_in_range; try lia; try reflexivity.
  cbn [txn setup_database]. f_equal.
  change (Z.to_nat ((2 - 1) * 10)) with 10%nat.
  rewrite skipn_all2 by (rewrite Hlen; apply Nat.eq_le_incl; reflexivity).
  apply firstn_nil.
Qed.

End Listing.

(** ** Update *)

Section Update.

Lemma written_some (a : option string) (x : string) :
  written a = Some x <-> a = Some x /\ x <> "".
Proof.
  unfold written, truthy. destruct a as [v|].
  - destruct (String.eqb_spec v "") as [E|E]; simpl; split.
    + discriminate.
    + intros [H1 H2]. injection H1 as ->. contradiction.
    + intros H. injection H as ->. tauto.
    + tauto.
  - split; [discriminate | intros [H _]; discriminate].
Qed.



Lemma collides_true (t : Table) (cid : Z) (e p : option string) :
  collides cid e p t = true ->
  exists d, In d t /\ id d <> cid
            /\ (e = Some (email d) \/ p = Some (phone d)).
Proof.
  unfold collides. rewrite existsb_exists. intros [d [Hin H]].
  exists d. apply andb_prop in H. destruct H as [H1 H2].
  split; trivial. split.
  - intros E. rewrite (proj2 (Z.eqb_eq _ _) E) in H1. discriminate.
  - apply orb_prop in H2. destruct H2 as [H2 | H2].
    + left. destruct e as [x|]; [|discriminate].
      apply String.eqb_eq in H2. now subst.
    + right. destruct p as [x|]; [|discriminate].
      apply String.eqb_eq in H2. now subst.
Qed.




(** The scenario of the demo run: the new email is stored, the rest of the
    row and the other row stay. *)
Example update_alice_email :
  update_contact two_contacts 1 (Some "alice.smith@example.com") None
  = (setup_database
       [mkContact 1 "Alice Smith" "alice.smith@example.com" "555-1234"; bob],
     Updated).
Proof. reflexivity. Qed.


(** C9: an empty string given as the new email or the new phone is handled
    exactly as an omitted argument, and no call of [update_contact] makes a
    field empty: every row of the table after the call comes from a row with
    the same id and name before it, and if its email (or phone) is empty
    after the call, it was empty before. *)
Theorem update_contact_empty_is_omitted
  (s : Session) (cid : Z) (new_email new_phone : option string) :
  clean s ->
  update_contact s cid (Some "") new_phone = update_contact s cid None new_phone
  /\ update_contact s cid new_email (Some "") = update_contact s cid new_email None
  /\ (forall c', In c' (db (fst (update_contact s cid new_email new_phone))) ->
      exists c, In c (db s) /\ id c = id c' /\ name c = name c'
                /\ (email c' = "" -> email c = "")
                /\ (phone c' = "" -> phone c = "")).
Proof.
  intros Hc. split; [reflexivity|]. split.
  { unfold update_contact. destruct (get_contact s cid); reflexivity. }
  destruct (clean_inv s Hc) as [t ->]. simpl.
  assert (Hsame : forall c', In c' t ->
            exists c, In c t /\ id c = id c' /\ name c = name c'
                      /\ (email c' = "" -> email c = "")
                      /\ (phone c' = "" -> phone c = "")).
  { intros c' H. exists c'. tauto. }
  rewrite update_contact_clean.
  destruct (fits_int64 cid); [|simpl; trivial].
  destruct (one_or_none _) as [|c0| |]; simpl; trivial.
  destruct (sql_update _ _ _ _) as [err|t'] eqn:E; simpl; trivial.
  apply sql_update_inr in E. subst t'.
  intros c' Hin. apply in_map_iff in Hin. destruct Hin as [c [Ec Hin]].
  exists c. split; trivial. subst c'.
  destruct (id c =? id c0); [|tauto].
  unfold assign. simpl. repeat split.
  - destruct (written new_email) as [x|] eqn:W; trivial.
    apply written_some in W. intros ->. tauto.
  - destruct (written new_phone) as [x|] eqn:W; trivial.
    apply written_some in W. intros ->. tauto.
Qed.

Lemma update_contact_empty_is_omitted_witness :
  update_contact two_contacts 1 (Some "") (Some "555-0000")
  = update_contact two_contacts 1 None (Some "555-0000")
  /\ update_contact two_contacts 1 (Some "") (Some "")
     = update_contact two_contacts 1 (Some "") None
  /\ (forall c', In c' (db (fst (update_contact two_contacts 1 (Some "")
                                   (Some "555-0000")))) ->
      exists c, In c (db two_contacts) /\ id c = id c' /\ name c = name c'
                /\ (email c' = "" -> email c = "")
                /\ (phone c' = "" -> phone c = "")).
Proof.
  apply (update_contact_empty_is_omitted two_contacts 1 (Some "") (Some "555-0000")).
  apply clean_setup.
Defined.

End Update.

(** ** Configuration *)

Section Configuration.



(** A valid level, in any case, is kept and configured. *)
Example debug_level_kept :
  effective_level (py := sample_python)
    (mkConfig [] [("database", []); ("logging", [("log_level", "Debug")])])
  = Some 10.
Proof. reflexivity. Qed.

(** An option missing from its section is taken from the defaults. *)
Example level_from_defaults :
  read_config (py := sample_python)
    (mkConfig [("log_level", "error")] [("database", []); ("logging", [])])
  = inr ("sqlite:///contacts.db", "contact_manager.log", "error").
Proof. reflexivity. Qed.

End Configuration.

(** ** Search *)

Section Search.

Local Open Scope string_scope.








Lemma lower_append (a b : string) : lower (a ++ b) = lower a ++ lower b.
Proof. induction a as [|c a IH]; simpl; [reflexivity | now rewrite IH]. Qed.




Lemma starts_with_spec (f s : string) :
  starts_with f s = true <-> exists post, s = f ++ post.
Proof.
  revert s. induction f as [|c f IH]; intros s; simpl.
  - split; trivial. intros _. now exists s.
  - destruct s as [|d s].
    + split; [discriminate | intros [post E]; discriminate].
    + rewrite andb_true_iff, IH, Ascii.eqb_eq. split.
      * intros [-> [post ->]]. now exists post.
      * intros [post E]. injection E as -> ->. split; trivial. now exists post.
Qed.

Lemma containsb_spec (f s : string) :
  containsb f s = true <-> contains f s.
Proof.
  unfold contains. induction s as [|a s IH]; simpl.
  - rewrite orb_false_r, starts_with_spec. split.
    + intros [post E]. now exists "", post.
    + intros (pre & post & E). destruct pre; [|discriminate]. now exists post.
  - rewrite orb_true_iff, IH, starts_with_spec. split.
    + intros [[post E] | (pre & post & E)].
      * now exists "", post.
      * exists (String a pre), post. simpl. now rewrite E.
    + intros (pre & post & E). destruct pre as [|b pre]; simpl in E.
      * left. now exists post.
      * right. injection E as -> ->. now exists pre, post.
Qed.

End Search.

Section SearchResults.

Lemma filter_twice {A : Type} (g h : A -> bool) (l : list A) :
  filter h (filter g l) = filter (fun x => g x && h x) l.
Proof.
  induction l as [|a l IH]; simpl; trivial.
  destruct (g a); simpl; [|exact IH].
  destruct (h a); now rewrite IH.
Qed.



(** Searching "ali" among Alice and Bob shows Alice alone. *)
Example search_ali_finds_alice :
  search_contacts two_contacts (Some "ali") None None = [alice].
Proof. reflexivity. Qed.


(** [_] stands for any one character. *)
Example search_underscore_is_wildcard :
  search_contacts two_contacts (Some "a_i") None None = [alice]
  /\ ~ contains_ci "a_i" (name alice).
Proof.
  split; [reflexivity|].
  intros H; apply containsb_spec in H; vm_compute in H; discriminate.
Qed.

End SearchResults.

(** * Further properties of the operations *)

(** ** Lookups after a call *)

Section LookupsAfterCalls.

Lemma lookup_one (cid : Z) (t : Table) (c : Contact) :
  one_or_none (filter (fun d => id d =? cid) t) = OneRow c ->
  In c t /\ id c = cid.
Proof.
  intros H.
  assert (Hin : In c (filter (fun d => id d =? cid) t)).
  { destruct (filter _ t) as [|a [|b l]]; simpl in H; try discriminate.
    injection H as ->. now left. }
  apply filter_In in Hin. destruct Hin as [Hin E].
  apply Z.eqb_eq in E. tauto.
Qed.

Lemma lookup_snoc_other (i : Z) (t : Table) (c : Contact) :
  id c <> i ->
  filter (fun d => id d =? i) (t ++ [c]) = filter (fun d => id d =? i) t.
Proof.
  intros H. rewrite filter_app. simpl.
  rewrite (proj2 (Z.eqb_neq _ _) H). apply app_nil_r.
Qed.

Lemma next_rowid_fresh (t : Table) : ~ In (next_rowid t) (map id t).
Proof. intros H. apply next_rowid_above in H. lia. Qed.

(** An added contact can be read back: on a clean session, when the email
    and the phone are not stored yet, and the id the table hands out next is
    a 64-bit integer, as every id of a real table is, [add_contact] reports
    an id that no stored row had, and the lookup of that id in the session it
    leaves finds one row, with exactly the name, email and phone given. *)
Theorem add_contact_then_get (s : Session) (n e p : string) :
  clean s ->
  ~ In e (map email (db s)) -> ~ In p (map phone (db s)) ->
  fits_int64 (next_rowid (db s)) = true ->
  exists i,
    snd (add_contact s (Some n) (Some e) (Some p)) = Added i
    /\ ~ In i (map id (db s))
    /\ get_contact (fst (add_contact s (Some n) (Some e) (Some p))) i
       = OneRow (mkContact i n e p).
Proof.
  intros Hc He Hp Hfit. destruct (clean_inv s Hc) as [t ->]. simpl in *.
  rewrite add_contact_clean, sql_insert_fresh by assumption.
  exists (next_rowid t). simpl. rewrite last_id_snoc. simpl.
  split; [reflexivity|]. split; [apply next_rowid_fresh|].
  rewrite get_contact_clean, Hfit, filter_app.
  rewrite (lookup_absent (next_rowid t) t (next_rowid_fresh t)).
  simpl. now rewrite Z.eqb_refl.
Qed.

Lemma add_contact_then_get_witness :
  exists i,
    snd (add_contact two_contacts (Some "Carol") (Some "carol@example.com")
           (Some "555-9999")) = Added i
    /\ ~ In i (map id (db two_contacts))
    /\ get_contact (fst (add_contact two_contacts (Some "Carol")
                           (Some "carol@example.com") (Some "555-9999"))) i
       = OneRow (mkContact i "Carol" "carol@example.com" "555-9999").
Proof.
  apply add_contact_then_get.
  - apply clean_setup.
  - simpl. intuition discriminate.
  - simpl. intuition discriminate.
  - reflexivity.
Defined.

(** [add_contact] does not disturb the stored contacts: whatever the
    arguments and whether the call succeeds or not, the lookup of an id that
    was stored before the call gives the same answer after it. *)
Theorem add_contact_keeps_lookups (s : Session) (n e p : option string) (i : Z) :
  clean s -> In i (map id (db s)) ->
  get_contact (fst (add_contact s n e p)) i = get_contact s i.
Proof.
  intros Hc Hi. destruct (clean_inv s Hc) as [t ->]. simpl in Hi.
  rewrite add_contact_clean.
  destruct (sql_insert t n e p) as [err|t'] eqn:E; simpl; trivial.
  apply sql_insert_inr in E.
  destruct E as (n' & e' & p' & _ & _ & _ & _ & _ & ->).
  unfold get_contact, query_by_id. simpl.
  rewrite lookup_snoc_other; trivial.
  simpl. intros <-. now apply next_rowid_fresh in Hi.
Qed.

Lemma add_contact_keeps_lookups_witness :
  get_contact (fst (add_contact two_contacts (Some "Carol")
                      (Some "carol@example.com") (Some "555-9999"))) 2
  = get_contact two_contacts 2.
Proof.
  apply add_contact_keeps_lookups.
  - apply clean_setup.
  - simpl. tauto.
Defined.

(** [delete_contact] touches the one id it is given: the lookup of any other
    id gives the same answer after the call as before it. *)
Theorem delete_contact_keeps_other_lookups (s : Session) (cid i : Z) :
  clean s -> i <> cid ->
  get_contact (fst (delete_contact s cid)) i = get_contact s i.
Proof.
  intros Hc Hi. destruct (clean_inv s Hc) as [t ->].
  rewrite delete_contact_clean.
  destruct (fits_int64 cid); [|reflexivity].
  destruct (one_or_none _) as [|c| |] eqn:E; simpl; trivial.
  apply lookup_one in E. destruct E as [_ E].
  rewrite !get_contact_clean. destruct (fits_int64 i); [|reflexivity].
  unfold sql_delete. rewrite filter_twice. f_equal. apply filter_ext.
  intros d.
  destruct (Z.eqb_spec (id d) i) as [Ei|Ei].
  - assert (Hne : id d <> id c) by congruence.
    now rewrite (proj2 (Z.eqb_neq _ _) Hne).
  - apply andb_false_r.
Qed.

Lemma delete_contact_keeps_other_lookups_witness :
  get_contact (fst (delete_contact two_contacts 2)) 1
  = get_contact two_contacts 1.
Proof.
  apply delete_contact_keeps_other_lookups.
  - apply clean_setup.
  - lia.
Defined.

(** On a reachable session the lookup by id never meets two rows: for an id
    that is a 64-bit integer it finds no row exactly when the id is not
    stored, and otherwise the one stored row with that id; for any other
    integer it raises [OverflowError]. *)
Theorem reachable_lookup_is_unique (s : Session) (cid : Z) :
  reachable s ->
  (fits_int64 cid = true ->
   (get_contact s cid = NoRow /\ ~ In cid (map id (db s)))
   \/ (exists c, get_contact s cid = OneRow c /\ In c (db s) /\ id c = cid))
  /\ (fits_int64 cid = false -> get_contact s cid = OverflowError).
Proof.
  intros Hr. apply reachable_tidy in Hr. destruct Hr as [Hc (Hid & _)].
  destruct (clean_inv s Hc) as [t ->]. simpl in *.
  apply sorted_NoDup in Hid. rewrite get_contact_clean.
  split; intros Hfit; rewrite Hfit; [|reflexivity].
  destruct (in_dec Z.eq_dec cid (map id t)) as [Hin | Hout].
  - right. destruct (lookup_present cid t Hid Hin) as (c & -> & H1 & H2).
    exists c. simpl. tauto.
  - left. now rewrite (lookup_absent cid t Hout).
Qed.

Lemma reachable_lookup_is_unique_witness :
  (fits_int64 2 = true ->
   (get_contact two_contacts 2 = NoRow /\ ~ In 2 (map id (db two_contacts)))
   \/ (exists c, get_contact two_contacts 2 = OneRow c
                 /\ In c (db two_contacts) /\ id c = 2))
  /\ (fits_int64 2 = false -> get_contact two_contacts 2 = OverflowError).
Proof.
  exact (reachable_lookup_is_unique two_contacts 2 two_contacts_reachable).
Defined.



End LookupsAfterCalls.

(** ** What a call does to the table as a whole *)

Section TableEffects.

Lemma delete_absent (cid : Z) (t : Table) :
  ~ In cid (map id t) -> sql_delete t cid = t.
Proof.
  unfold sql_delete. induction t as [|c t IH]; simpl; trivial.
  intros H. destruct (Z.eqb_spec (id c) cid) as [E|E]; [tauto|].
  simpl. f_equal. apply IH. tauto.
Qed.

Lemma delete_one_row (cid : Z) (t : Table) :
  NoDup (map id t) -> In cid (map id t) ->
  S (List.length (sql_delete t cid)) = List.length t.
Proof.
  induction t as [|c t IH]; simpl; [tauto|].
  intros Hd Hin. inversion Hd as [|i l Hi Hd']; subst.
  unfold sql_delete. simpl.
  destruct (Z.eqb_spec (id c) cid) as [E|E]; simpl.
  - fold (sql_delete t cid). rewrite delete_absent by congruence. reflexivity.
  - f_equal. apply IH; tauto.
Qed.

(** The number of stored contacts follows the answer of the call: a
    successful [add_contact] adds exactly one row, a successful
    [delete_contact] removes exactly one, and every other call, successful
    updates included, leaves the number of rows as it was. *)
Theorem row_count_follows_outcome (s : Session) (c : Call) :
  session_ok s ->
  match snd (run s c) with
  | Added _ => List.length (db (fst (run s c))) = S (List.length (db s))
  | Deleted => S (List.length (db (fst (run s c)))) = List.length (db s)
  | _ => List.length (db (fst (run s c))) = List.length (db s)
  end.
Proof.
  intros [Hc [(Hid & _) Hfit]]. destruct (clean_inv s Hc) as [t ->]. simpl in Hid.
  apply sorted_NoDup in Hid.
  destruct c as [n e p | cid e p | cid]; simpl.
  - rewrite add_contact_clean.
    destruct (sql_insert t n e p) as [err|t'] eqn:E; simpl; trivial.
    apply sql_insert_inr in E.
    destruct E as (n' & e' & p' & _ & _ & _ & _ & _ & ->).
    rewrite length_app. simpl. lia.
  - rewrite update_contact_clean.
    destruct (fits_int64 cid); [|simpl; trivial].
    destruct (one_or_none _) as [|d| |]; simpl; trivial.
    destruct (sql_update _ _ _ _) as [err|t'] eqn:E; simpl; trivial.
    apply sql_update_inr in E. subst t'. apply length_map.
  - rewrite delete_contact_clean.
    destruct (fits_int64 cid); [|simpl; trivial].
    destruct (one_or_none _) as [|d| |] eqn:E; simpl; trivial.
    apply lookup_one in E. destruct E as [Hin E].
    apply delete_one_row; trivial. now apply in_map.
Qed.

Lemma row_count_follows_outcome_witness :
  match snd (run two_contacts (CallDelete 1)) with
  | Added _ =>
      List.length (db (fst (run two_contacts (CallDelete 1))))
      = S (List.length (db two_contacts))
  | Deleted =>
      S (List.length (db (fst (run two_contacts (CallDelete 1)))))
      = List.length (db two_contacts)
  | _ =>
      List.length (db (fst (run two_contacts (CallDelete 1))))
      = List.length (db two_contacts)
  end.
Proof.
  apply (row_count_follows_outcome two_contacts (CallDelete 1)).
  apply two_contacts_ok.
Defined.

(** [update_contact] never changes an id or a name, and never adds, removes
    or reorders rows: the ids and the names of the table, row by row, are the
    same after the call as before, whatever the arguments. *)
Theorem update_contact_keeps_ids_and_names
  (s : Session) (cid : Z) (new_email new_phone : option string) :
  clean s ->
  map id (db (fst (update_contact s cid new_email new_phone))) = map id (db s)
  /\ map name (db (fst (update_contact s cid new_email new_phone)))
     = map name (db s).
Proof.
  intros Hc. destruct (clean_inv s Hc) as [t ->].
  rewrite update_contact_clean.
  destruct (fits_int64 cid); [|simpl; tauto].
  destruct (one_or_none _) as [|d| |]; simpl; try tauto.
  destruct (sql_update _ _ _ _) as [err|t'] eqn:E; simpl; try tauto.
  apply sql_update_inr in E. subst t'. split.
  - apply update_keeps_ids.
  - rewrite map_map. apply map_ext. intros c.
    now destruct (id c =? id d).
Qed.

Lemma update_contact_keeps_ids_and_names_witness :
  map id (db (fst (update_contact two_contacts 2 (Some "rob@example.com")
                     (Some "555-0000"))))
  = map id (db two_contacts)
  /\ map name (db (fst (update_contact two_contacts 2 (Some "rob@example.com")
                          (Some "555-0000"))))
     = map name (db two_contacts).
Proof.
  apply update_contact_keeps_ids_and_names. apply clean_setup.
Defined.

End TableEffects.

(** ** Paging *)

Section Paging.

Lemma firstn_plus {A : Type} (a b : nat) (l : list A) :
  firstn (a + b) l = firstn a l ++ firstn b (skipn a l).
Proof.
  revert l. induction a as [|a IH]; intros l; simpl; trivial.
  destruct l as [|x l]; simpl.
  - now rewrite firstn_nil.
  - now rewrite IH.
Qed.

Lemma list_contacts_as_slice (s : Session) (k : nat) (per_page : Z) :
  1 <= per_page -> Z.of_nat (S k) * per_page < 2 ^ 63 ->
  list_contacts s (Z.of_nat (S k)) per_page
  = Some (firstn (Z.to_nat per_page)
            (skipn (k * Z.to_nat per_page) (txn s))).
Proof.
  intros Hpp Hb.
  rewrite list_contacts_in_range; try lia; try nia.
  replace (Z.to_nat ((Z.of_nat (S k) - 1) * per_page))
    with (k * Z.to_nat per_page)%nat; trivial.
  replace (Z.of_nat (S k) - 1) with (Z.of_nat k) by lia.
  rewrite Z2Nat.inj_mul by lia. now rewrite Nat2Z.id.
Qed.

(** Paging through the contacts loses nothing and repeats nothing: for
    [per_page >= 1] and [n * per_page] below 2^63, the pages 1 to [n] of
    [list_contacts], one after the other, are the first [n * per_page] rows
    of [get_all_contacts], in the same order; so once [n * per_page] reaches
    the number of rows, they are all the contacts.  With a [per_page] of
    2^63 or more there is no first page: the call ends in its error
    branch. *)
Theorem pages_cover_all_contacts (s : Session) (per_page : Z) (n : nat) :
  1 <= per_page ->
  (Z.of_nat n * per_page < 2 ^ 63 ->
   pages s per_page n
   = Some (firstn (n * Z.to_nat per_page) (CrudExample.get_all_contacts s))
   /\ ((List.length (CrudExample.get_all_contacts s)
        <= n * Z.to_nat per_page)%nat ->
       pages s per_page n = Some (CrudExample.get_all_contacts s)))
  /\ (2 ^ 63 <= per_page -> pages s per_page (S n) = None).
Proof.
  intros Hpp. unfold CrudExample.get_all_contacts. split.
  - intros Hb.
    assert (E : pages s per_page n
                = Some (firstn (n * Z.to_nat per_page) (txn s))).
    { induction n as [|k IH].
      - reflexivity.
      - cbn [pages]. rewrite IH by nia.
        rewrite list_contacts_as_slice by assumption.
        rewrite <- firstn_plus. do 2 f_equal. lia. }
    split; trivial.
    intros Hlen. rewrite E. f_equal. now apply firstn_all2.
  - intros Hbig. cbn [pages].
    assert (E : list_contacts s (Z.of_nat (S n)) per_page = None).
    { unfold list_contacts.
      assert (F : fits_int64 per_page = false).
      { apply not_true_iff_false. rewrite fits_int64_spec. lia. }
      now rewrite F. }
    rewrite E. now destruct (pages s per_page n).
Qed.

Lemma pages_cover_all_contacts_witness :
  (Z.of_nat 2 * 1 < 2 ^ 63 ->
   pages two_contacts 1 2
   = Some (firstn (2 * Z.to_nat 1) (CrudExample.get_all_contacts two_contacts))
   /\ ((List.length (CrudExample.get_all_contacts two_contacts)
        <= 2 * Z.to_nat 1)%nat ->
       pages two_contacts 1 2
       = Some (CrudExample.get_all_contacts two_contacts)))
  /\ (2 ^ 63 <= 1 -> pages two_contacts 1 (S 2) = None).
Proof.
  apply pages_cover_all_contacts. lia.
Defined.

End Paging.

(** ** More on search *)

Section SearchAlgebra.

Lemma lower_empty (v w : string) :
  lower v = lower w -> String.eqb v "" = String.eqb w "".
Proof. destruct v, w; simpl; trivial; discriminate. Qed.

Lemma filter_on_same_ci (a b : option string) (column : string) :
  same_ci a b -> filter_on a column = filter_on b column.
Proof.
  unfold same_ci. destruct a as [v|], b as [w|]; simpl; try discriminate;
    trivial.
  intros H. injection H as H. rewrite (lower_empty v w H).
  destruct (String.eqb w ""); simpl; trivial.
  unfold ilike. simpl. now rewrite !lower_append, H.
Qed.

Lemma filter_on_falsy (a : option string) (column : string) :
  truthy a = false -> filter_on a column = true.
Proof.
  unfold filter_on. destruct a as [v|]; trivial. now intros ->.
Qed.

Lemma filter_all {A : Type} (h : A -> bool) (l : list A) :
  (forall x, h x = true) -> filter h l = l.
Proof.
  intros H. induction l as [|a l IH]; simpl; trivial.
  now rewrite H, IH.
Qed.

(** The filters of [search_contacts] are joined by "and": a contact is shown
    for three arguments exactly when it is shown for each of them given
    alone. *)
Theorem search_contacts_is_conjunction (s : Session) (n e p : option string)
  (c : Contact) :
  In c (search_contacts s n e p)
  <-> In c (search_contacts s n None None)
      /\ In c (search_contacts s None e None)
      /\ In c (search_contacts s None None p).
Proof.
  unfold search_contacts. rewrite !filter_In. simpl. tauto.
Qed.

(** The case of the letters of a search argument does not matter: two calls
    of [search_contacts] whose arguments differ only in the case of ASCII
    letters show the same contacts, wildcards or not. *)
Theorem search_contacts_ignores_case
  (s : Session) (n n' e e' p p' : option string) :
  same_ci n n' -> same_ci e e' -> same_ci p p' ->
  search_contacts s n e p = search_contacts s n' e' p'.
Proof.
  intros Hn He Hp. unfold search_contacts.
  rewrite (filter_ext _ _ (fun c => filter_on_same_ci n n' (name c) Hn)).
  rewrite (filter_ext _ _ (fun c => filter_on_same_ci e e' (email c) He)).
  rewrite (filter_ext _ _ (fun c => filter_on_same_ci p p' (phone c) Hp)).
  reflexivity.
Qed.

Lemma search_contacts_ignores_case_witness :
  search_contacts two_contacts (Some "ALI") None (Some "555")
  = search_contacts two_contacts (Some "ali") None (Some "555").
Proof.
  apply search_contacts_ignores_case; reflexivity.
Defined.

(** Called with no usable argument (each one [None] or empty),
    [search_contacts] filters nothing and shows every contact of the
    table. *)
Theorem search_contacts_without_criteria (s : Session) (n e p : option string) :
  truthy n = false -> truthy e = false -> truthy p = false ->
  search_contacts s n e p = txn s.
Proof.
  intros Hn He Hp. unfold search_contacts.
  rewrite !filter_all; trivial; intros c; now apply filter_on_falsy.
Qed.

Lemma search_contacts_without_criteria_witness :
  search_contacts two_contacts (Some "") None (Some "") = txn two_contacts.
Proof.
  apply search_contacts_without_criteria; reflexivity.
Defined.

(** The keyword search of the demo joins its three conditions by "or": for a
    non-empty keyword it shows a contact exactly when [search_contacts] of
    [main.py] shows it for that keyword given as the name, as the email or as
    the phone. *)
Theorem keyword_search_is_union (s : Session) (keyword : string) (c : Contact) :
  keyword <> "" ->
  In c (CrudExample.search_contacts s keyword)
  <-> In c (search_contacts s (Some keyword) None None)
      \/ In c (search_contacts s None (Some keyword) None)
      \/ In c (search_contacts s None None (Some keyword)).
Proof.
  intros Hk. unfold CrudExample.search_contacts, search_contacts.
  rewrite !filter_In. unfold filter_on, truthy.
  rewrite (proj2 (String.eqb_neq keyword "") Hk). simpl.
  rewrite !orb_true_iff. tauto.
Qed.

Lemma keyword_search_is_union_witness :
  In alice (CrudExample.search_contacts two_contacts "555-1")
  <-> In alice (search_contacts two_contacts (Some "555-1") None None)
      \/ In alice (search_contacts two_contacts None (Some "555-1") None)
      \/ In alice (search_contacts two_contacts None None (Some "555-1")).
Proof.
  apply keyword_search_is_union. discriminate.
Defined.



End SearchAlgebra.

(** ** The email update of the demo *)

Section EmailUpdate.


(** For a non-empty new email the two update functions are the same:
    [update_contact_email] of the demo leaves the session and gives the
    answer that [update_contact] of [main.py] gives when only the email is
    passed. *)
Theorem update_contact_email_agrees (s : Session) (cid : Z) (x : string) :
  x <> "" ->
  CrudExample.update_contact_email s cid x = update_contact s cid (Some x) None.
Proof.
  intros Hx. unfold CrudExample.update_contact_email, update_contact.
  destruct (get_contact s cid) as [|c| |]; try reflexivity.
  assert (W : written (Some x) = Some x) by now apply written_some.
  rewrite W. reflexivity.
Qed.

Lemma update_contact_email_agrees_witness :
  CrudExample.update_contact_email two_contacts 1 "alice.smith@example.com"
  = update_contact two_contacts 1 (Some "alice.smith@example.com") None.
Proof.
  apply update_contact_email_agrees. discriminate.
Defined.



End EmailUpdate.

(** ** More on the configuration *)

Section ConfigurationMore.








(** Whatever the configuration says, the level [read_config] returns is,
    upper-cased, one of the five valid names, so [setup_logging] resolves it
    without falling back, and the level the program logs at is one of 10, 20,
    30, 40, 50. *)
Theorem returned_level_is_valid {py : Python}
  (config : Config) (db_url log_file log_level : string) :
  read_config config = inr (db_url, log_file, log_level) ->
  mem (upper log_level) valid_levels = true
  /\ exists k,
      logging_attr (upper log_level) = Some k
      /\ effective_level config = Some k
      /\ In k [10; 20; 30; 40; 50].
Proof.
  intros Hr.
  assert (Hm : mem (upper log_level) valid_levels = true).
  { unfold read_config in Hr.
    destruct (has_section config "database"); [|discriminate].
    destruct (has_section config "logging"); [|discriminate].
    cbn [negb] in Hr.
    destruct (get config "database" "db_url" _); [discriminate|].
    destruct (get config "logging" "log_file" _); [discriminate|].
    destruct (get config "logging" "log_level" _) as [|v]; [discriminate|].
    revert Hr.
    destruct (mem (upper v) valid_levels)
      eqn:Hv; cbn [negb]; intros Hr; injection Hr as _ _ <-;
      [exact Hv | reflexivity]. }
  split; trivial.
  unfold effective_level, setup_logging. rewrite Hr.
  unfold mem in Hm. apply existsb_exists in Hm.
  destruct Hm as [v [Hin Hv]]. apply String.eqb_eq in Hv. rewrite Hv.
  simpl in Hin.
  destruct Hin as [<- | [<- | [<- | [<- | [<- | []]]]]];
    eexists; (split; [reflexivity|]); (split; [reflexivity|]);
    simpl; tauto.
Qed.

Lemma returned_level_is_valid_witness :
  mem (upper (py := sample_python) "warning") valid_levels = true
  /\ exists k,
      logging_attr (upper (py := sample_python) "warning") = Some k
      /\ effective_level (py := sample_python) sample_config = Some k
      /\ In k [10; 20; 30; 40; 50].
Proof.
  apply (returned_level_is_valid (py := sample_python) sample_config
           "sqlite:///contacts.db" "cms.log").
  reflexivity.
Defined.

End ConfigurationMore.

(** ** The command line *)

Section CommandLine.

Lemma run_failed_same (t : Table) (c : Call) :
  is_error (snd (run (setup_database t) c)) = true ->
  fst (run (setup_database t) c) = setup_database t.
Proof.
  destruct c as [n e p | cid e p | cid]; simpl.
  - rewrite add_contact_clean.
    destruct (sql_insert t n e p); simpl; [reflexivity | discriminate].
  - rewrite update_contact_clean.
    destruct (fits_int64 cid); [|reflexivity].
    destruct (one_or_none _) as [|c| |]; simpl; try reflexivity.
    destruct (sql_update _ _ _ _); simpl; [reflexivity | discriminate].
  - rewrite delete_contact_clean.
    destruct (fits_int64 cid); [|reflexivity].
    destruct (one_or_none _) as [|c| |]; simpl; try reflexivity.
    discriminate.
Qed.

(** A run of [main] changes the stored table only when it reports a
    successful add, update or delete: after the help text, a configuration
    error, a listing, a search, a "please provide" message or the error
    message of an operation, the table is what it was. *)
Theorem main_changes_table_only_on_success {py : Python}
  (args : option Command) (config : Config) (t : Table) :
  match snd (main args config t) with
  | Told o => is_error o = true
  | _ => True
  end ->
  fst (fst (main args config t)) = t.
Proof.
  unfold main. destruct args as [args|]; [|reflexivity].
  destruct (read_config config) as [[msg|] | [[u f] l]]; try reflexivity.
  destruct args as [n e p | a page pp | cid e p | cid | n e p];
    unfold execute.
  - pose proof (run_failed_same t (CallAdd (Some n) (Some e) (Some p))) as H.
    simpl in H. destruct (add_contact _ _ _ _) as [s o]. simpl in *.
    intros Ho. now rewrite (H Ho).
  - destruct (list_contacts _ _ _); reflexivity.
  - destruct (negb (truthy e) && negb (truthy p)); [reflexivity|].
    pose proof (run_failed_same t (CallUpdate cid e p)) as H.
    simpl in H. destruct (update_contact _ _ _ _) as [s o]. simpl in *.
    intros Ho. now rewrite (H Ho).
  - pose proof (run_failed_same t (CallDelete cid)) as H.
    simpl in H. destruct (delete_contact _ _) as [s o]. simpl in *.
    intros Ho. now rewrite (H Ho).
  - destruct (negb (truthy n) && negb (truthy e) && negb (truthy p));
      reflexivity.
Qed.

Lemma main_changes_table_only_on_success_witness :
  fst (fst (main (py := sample_python)
              (Some (CmdUpdate 1 (Some "bob@example.com") None))
              sample_config [alice; bob]))
  = [alice; bob].
Proof.
  apply (main_changes_table_only_on_success (py := sample_python)
           (Some (CmdUpdate 1 (Some "bob@example.com") None))
           sample_config [alice; bob]).
  reflexivity.
Defined.

Lemma lookup_updated (t : Table) (c : Contact) (g : Contact -> Contact) :
  NoDup (map id t) -> In c t -> (forall d, id (g d) = id d) ->
  filter (fun d => id d =? id c)
    (map (fun d => if id d =? id c then g d else d) t)
  = [g c].
Proof.
  intros Hd Hin Hg.
  set (f := fun d => if id d =? id c then g d else d).
  assert (Hids : map id (map f t) = map id t).
  { rewrite map_map. apply map_ext. intros d. unfold f.
    destruct (id d =? id c); [apply Hg | reflexivity]. }
  assert (Hgc : In (g c) (map f t)).
  { apply in_map_iff. exists c. split; trivial.
    unfold f. now rewrite Z.eqb_refl. }
  assert (Hd' : NoDup (map id (map f t))) by now rewrite Hids.
  assert (Hrow : In (id c) (map id (map f t))).
  { rewrite Hids. now apply in_map. }
  destruct (lookup_present (id c) (map f t) Hd' Hrow) as (c' & -> & H1 & H2).
  f_equal. apply (NoDup_map_eq id (map f t)); trivial.
  now rewrite Hg.
Qed.

Lemma truthy_some (a : option string) :
  truthy a = true -> exists x, a = Some x /\ x <> "" /\ written a = Some x.
Proof.
  unfold written. intros H. rewrite H. unfold truthy in H.
  destruct a as [x|]; [|discriminate]. exists x.
  apply negb_true_iff, String.eqb_neq in H. tauto.
Qed.

(** Through the command line, "has been updated" means that a field was
    written: when [update] on a consistent session answers with the success
    message, the contact with that id is found afterwards and its email is
    the non-empty email given, or its phone the non-empty phone given (an
    [update] with neither is answered with "Please provide ..." instead). *)
Theorem update_command_writes_a_field
  (s s' : Session) (cid : Z) (e p : option string) :
  session_ok s ->
  execute s (CmdUpdate cid e p) = (s', Told Updated) ->
  exists c',
    get_contact s' cid = OneRow c'
    /\ ((exists x, e = Some x /\ x <> "" /\ email c' = x)
        \/ (exists x, p = Some x /\ x <> "" /\ phone c' = x)).
Proof.
  intros [Hc [(Hid & _) Hfit]]. destruct (clean_inv s Hc) as [t ->].
  simpl in Hid. apply sorted_NoDup in Hid. unfold execute.
  destruct (negb (truthy e) && negb (truthy p)) eqn:G; [discriminate|].
  rewrite update_contact_clean.
  destruct (fits_int64 cid) eqn:Hcid; [|discriminate].
  destruct (one_or_none _) as [|c| |] eqn:L; try discriminate.
  apply lookup_one in L. destruct L as [Hin <-].
  destruct (sql_update _ _ _ _) as [err|t'] eqn:U; [discriminate|].
  intros H. injection H as <-. apply sql_update_inr in U. subst t'.
  exists (assign (written e) (written p) c). split.
  - rewrite get_contact_clean, Hcid.
    now rewrite (lookup_updated t c (assign (written e) (written p)) Hid Hin).
  - apply andb_false_iff in G. rewrite !negb_false_iff in G.
    destruct G as [G | G]; apply truthy_some in G;
      destruct G as (x & E & Hx & W); [left | right];
      exists x; rewrite W; simpl; tauto.
Qed.

Lemma update_command_writes_a_field_witness :
  exists c',
    get_contact (fst (update_contact two_contacts 2 (Some "") (Some "555-0000"))) 2
    = OneRow c'
    /\ ((exists x, Some "" = Some x /\ x <> "" /\ email c' = x)
        \/ (exists x, Some "555-0000" = Some x /\ x <> "" /\ phone c' = x)).
Proof.
  apply (update_command_writes_a_field two_contacts _ 2 (Some "") (Some "555-0000")).
  - apply two_contacts_ok.
  - reflexivity.
Defined.

End CommandLine.

(** ** Calls one after the other *)

Section Sequences.

Lemma lookup_empty (cid : Z) (t : Table) :
  one_or_none (filter (fun d => id d =? cid) t) = NoRow ->
  ~ In cid (map id t).
Proof.
  intros H Hin. apply in_map_iff in Hin. destruct Hin as [c [E Hin]].
  assert (Hc : In c (filter (fun d => id d =? cid) t)).
  { apply filter_In. split; trivial. now apply Z.eqb_eq. }
  destruct (filter _ t) as [|a [|b l]]; simpl in H; try discriminate.
  destruct Hc.
Qed.

(** Deleting the contact that was just added gives back the session as it
    was: after a successful [add_contact] on a clean session, the new id
    being a 64-bit integer, as every id of a real table is, [delete_contact]
    of the reported id answers "has been deleted" and leaves exactly the
    session from before the add. *)
Theorem add_then_delete_restores (s : Session) (n e p : string) :
  clean s ->
  ~ In e (map email (db s)) -> ~ In p (map phone (db s)) ->
  fits_int64 (next_rowid (db s)) = true ->
  exists i,
    snd (add_contact s (Some n) (Some e) (Some p)) = Added i
    /\ delete_contact (fst (add_contact s (Some n) (Some e) (Some p))) i
       = (s, Deleted).
Proof.
  intros Hc He Hp Hfit. destruct (clean_inv s Hc) as [t ->]. simpl in *.
  rewrite add_contact_clean, sql_insert_fresh by assumption.
  exists (next_rowid t). simpl. rewrite last_id_snoc. simpl.
  split; [reflexivity|].
  rewrite delete_contact_clean, Hfit, filter_app.
  rewrite (lookup_absent (next_rowid t) t (next_rowid_fresh t)).
  simpl. rewrite Z.eqb_refl. simpl. f_equal. f_equal.
  unfold sql_delete. rewrite filter_app. simpl. rewrite Z.eqb_refl. simpl.
  rewrite app_nil_r. apply (delete_absent (next_rowid t) t).
  apply next_rowid_fresh.
Qed.

Lemma add_then_delete_restores_witness :
  exists i,
    snd (add_contact two_contacts (Some "Carol") (Some "carol@example.com")
           (Some "555-9999")) = Added i
    /\ delete_contact (fst (add_contact two_contacts (Some "Carol")
                              (Some "carol@example.com") (Some "555-9999"))) i
       = (two_contacts, Deleted).
Proof.
  apply add_then_delete_restores.
  - apply clean_setup.
  - simpl. intuition discriminate.
  - simpl. intuition discriminate.
  - reflexivity.
Defined.

(** For an id that is a 64-bit integer, [update_contact] answers "No contact
    found" exactly when the id is not stored, and then the session is
    untouched; for any other integer the lookup raises and the call ends in
    its [except Exception] branch, "Error updating contact", the session as
    it was. *)
Theorem update_contact_unknown_id
  (s : Session) (cid : Z) (new_email new_phone : option string) :
  clean s ->
  (fits_int64 cid = true ->
   (snd (update_contact s cid new_email new_phone) = NoContact
    <-> ~ In cid (map id (db s)))
   /\ (~ In cid (map id (db s)) ->
       update_contact s cid new_email new_phone = (s, NoContact)))
  /\ (fits_int64 cid = false ->
      update_contact s cid new_email new_phone = (s, OtherErr)).
Proof.
  intros Hc. destruct (clean_inv s Hc) as [t ->]. simpl.
  rewrite update_contact_clean.
  split; intros Hfit; rewrite Hfit; [|reflexivity].
  assert (Habs : ~ In cid (map id t) ->
                 one_or_none (filter (fun c => id c =? cid) t) = NoRow).
  { intros H. now rewrite (lookup_absent cid t H). }
  split; [split|].
  - destruct (one_or_none _) as [|c| |] eqn:L; simpl.
    + intros _. now apply lookup_empty.
    + destruct (sql_update _ _ _ _); discriminate.
    + discriminate.
    + discriminate.
  - intros H. now rewrite (Habs H).
  - intros H. now rewrite (Habs H).
Qed.

Lemma update_contact_unknown_id_witness :
  (fits_int64 5 = true ->
   (snd (update_contact two_contacts 5 (Some "x@example.com") None) = NoContact
    <-> ~ In 5 (map id (db two_contacts)))
   /\ (~ In 5 (map id (db two_contacts)) ->
       update_contact two_contacts 5 (Some "x@example.com") None
       = (two_contacts, NoContact)))
  /\ (fits_int64 5 = false ->
      update_contact two_contacts 5 (Some "x@example.com") None
      = (two_contacts, OtherErr)).
Proof.
  apply update_contact_unknown_id. apply clean_setup.
Defined.

(** A contact does not collide with itself: [update_contact] called with the
    email and the phone the contact already has answers "has been updated"
    and leaves the session exactly as it was. *)
Theorem update_contact_with_own_values (s : Session) (c : Contact) :
  session_ok s -> In c (db s) ->
  update_contact s (id c) (Some (email c)) (Some (phone c)) = (s, Updated).
Proof.
  intros [Hc [(Hid & He & Hp) Hfit]] Hin. destruct (clean_inv s Hc) as [t ->].
  simpl in *. apply sorted_NoDup in Hid.
  rewrite update_contact_clean, (stored_id_fits t c Hfit Hin).
  assert (Hrow : In (id c) (map id t)) by now apply in_map.
  destruct (lookup_present (id c) t Hid Hrow) as (c0 & -> & Hin0 & E0).
  assert (c0 = c) by now apply (NoDup_map_eq id t).
  subst c0. simpl. unfold sql_update.
  assert (Hcol : collides (id c) (written (Some (email c)))
                   (written (Some (phone c))) t = false).
  { apply not_true_iff_false. intros H. apply collides_true in H.
    destruct H as (d & Hd & Hne & [H | H]); apply written_some in H;
      destruct H as [H _]; injection H as H; apply Hne; f_equal.
    - now apply (NoDup_map_eq email t).
    - now apply (NoDup_map_eq phone t). }
  rewrite Hcol, andb_false_r. f_equal. f_equal.
  rewrite <- (map_id t) at 2. apply map_ext_in. intros d Hd.
  destruct (Z.eqb_spec (id d) (id c)) as [E|E]; trivial.
  assert (d = c) by now apply (NoDup_map_eq id t).
  subst d. destruct c as [i nm em ph]. unfold assign, written, truthy. simpl.
  now destruct (String.eqb em ""), (String.eqb ph "").
Qed.

Lemma update_contact_with_own_values_witness :
  update_contact two_contacts (id bob) (Some (email bob)) (Some (phone bob))
  = (two_contacts, Updated).
Proof.
  apply update_contact_with_own_values.
  - apply two_contacts_ok.
  - simpl. tauto.
Defined.

(** Every run of [main] keeps the table consistent: started on a table whose
    rows are in increasing id order with no email and no phone stored twice,
    it leaves such a table, whatever the command and the configuration. *)
Theorem main_keeps_table_consistent {py : Python}
  (args : option Command) (config : Config) (t : Table) :
  consistent t -> consistent (fst (fst (main args config t))).
Proof.
  intros Ht. unfold main. destruct args as [args|]; [|exact Ht].
  destruct (read_config config) as [[msg|] | [[u f] l]]; try exact Ht.
  assert (Hok : tidy (setup_database t)).
  { split; [apply clean_setup | exact Ht]. }
  destruct args as [n e p | a page pp | cid e p | cid | n e p];
    unfold execute.
  - pose proof (run_tidy _ (CallAdd (Some n) (Some e) (Some p)) Hok) as H.
    simpl in H. destruct (add_contact _ _ _ _) as [s o]. apply H.
  - destruct (list_contacts _ _ _); exact Ht.
  - destruct (negb (truthy e) && negb (truthy p)); [exact Ht|].
    pose proof (run_tidy _ (CallUpdate cid e p) Hok) as H.
    simpl in H. destruct (update_contact _ _ _ _) as [s o]. apply H.
  - pose proof (run_tidy _ (CallDelete cid) Hok) as H.
    simpl in H. destruct (delete_contact _ _) as [s o]. apply H.
  - destruct (negb (truthy n) && negb (truthy e) && negb (truthy p));
      exact Ht.
Qed.

Lemma main_keeps_table_consistent_witness :
  consistent
    (fst (fst (main (py := sample_python)
                 (Some (CmdAdd "Carol" "carol@example.com" "555-9999"))
                 sample_config [alice; bob]))).
Proof.
  apply main_keeps_table_consistent.
  exact (proj2 (reachable_tidy two_contacts two_contacts_reachable)).
Defined.

End Sequences.
